(** * Set-piece extractor: a model of [src/scripts/extract_set_piece_data.py]

    The script reads a text report, cuts it into one section per club with
    regular expressions, splits every section into four lists and writes
    the result as JSON.

    Part I embeds the script:
    - Python text ([str] as a list of code points) with the string methods
      the script calls ([strip], [split('\n')], [split()], slicing);
    - the fragment of Python's [re] the script's patterns use, as a
      backtracking matcher with the same priorities (leftmost start,
      greedy [*], lazy [+?], ordered alternation, one capturing group);
    - the insertion-ordered [dict] the script fills, and the loop;
    - [json.dump] with [indent=4, ensure_ascii=False];
    - the two [open] calls over a small file-system state.

    Part II gives the words the statements need: what a pattern matches,
    where a heading stands, sample reports.  Part III proves the matcher
    sound and complete for the patterns' meaning, [re.search] leftmost,
    [+?] minimal, and then the properties of the extraction.  Part IV
    adds what the code shows beyond them: the extent of the penalties and
    free-kick blocks, the split the corners loop makes, where the strings
    of the report come from, the record of a section in the expected
    layout, line ends, and every outcome of a run. *)

From Stdlib Require Import NArith Lia.
From Stdlib.Strings Require Import String Ascii Byte.
From stdpp Require Import base option list strings gmap.

Local Open Scope N_scope.

(** * Part I: the program *)

(** ** Text *)

(** A Python [str] is a sequence of Unicode code points. *)
Definition char := N.
Definition str := list char.

(** Bytes on disk. *)
Definition bytes := list byte.

Module Utf8.

Definition cont (b : N) : bool := (0x80 <=? b) && (b <=? 0xBF).
Definition between (lo hi b : N) : bool := (lo <=? b) && (b <=? hi).

(** Strict UTF-8, as CPython's [utf-8] codec decodes it: shortest form
    only, no surrogates, nothing above U+10FFFF.  [fuel] bounds the
    number of code points and is the number of bytes at the call. *)
Fixpoint decode_aux (fuel : nat) (bs : list N) : option str :=
  match fuel with
  | O => match bs with [] => Some [] | _ => None end
  | S fuel =>
    match bs with
    | [] => Some []
    | b0 :: bs1 =>
      if b0 <? 0x80 then cons b0 <$> decode_aux fuel bs1
      else if between 0xC2 0xDF b0 then
        match bs1 with
        | b1 :: bs2 =>
          if cont b1
          then cons ((b0 - 0xC0) * 64 + (b1 - 0x80)) <$> decode_aux fuel bs2
          else None
        | _ => None
        end
      else if between 0xE0 0xEF b0 then
        match bs1 with
        | b1 :: b2 :: bs3 =>
          if between (if b0 =? 0xE0 then 0xA0 else 0x80)
                     (if b0 =? 0xED then 0x9F else 0xBF) b1 && cont b2
          then cons ((b0 - 0xE0) * 4096 + (b1 - 0x80) * 64 + (b2 - 0x80))
                 <$> decode_aux fuel bs3
          else None
        | _ => None
        end
      else if between 0xF0 0xF4 b0 then
        match bs1 with
        | b1 :: b2 :: b3 :: bs4 =>
          if between (if b0 =? 0xF0 then 0x90 else 0x80)
                     (if b0 =? 0xF4 then 0x8F else 0xBF) b1
             && cont b2 && cont b3
          then cons ((b0 - 0xF0) * 262144 + (b1 - 0x80) * 4096
                     + (b2 - 0x80) * 64 + (b3 - 0x80))
                 <$> decode_aux fuel bs4
          else None
        | _ => None
        end
      else None
    end
  end.

Definition decode (bs : bytes) : option str :=
  decode_aux (length bs) (Byte.to_N <$> bs).

Definition byte_of (n : N) : byte :=
  default x00 (Byte.of_N (n mod 256)).

(** Encoding of one code point; surrogates and values above U+10FFFF
    have no encoding. *)
Definition encode_char (c : char) : option bytes :=
  if c <? 0x80 then Some [byte_of c]
  else if c <? 0x800 then
    Some [byte_of (0xC0 + c / 64); byte_of (0x80 + c mod 64)]
  else if between 0xD800 0xDFFF c then None
  else if c <? 0x10000 then
    Some [byte_of (0xE0 + c / 4096); byte_of (0x80 + (c / 64) mod 64);
          byte_of (0x80 + c mod 64)]
  else if c <? 0x110000 then
    Some [byte_of (0xF0 + c / 262144); byte_of (0x80 + (c / 4096) mod 64);
          byte_of (0x80 + (c / 64) mod 64); byte_of (0x80 + c mod 64)]
  else None.

Fixpoint encode (s : str) : option bytes :=
  match s with
  | [] => Some []
  | c :: s' =>
    match encode_char c, encode s' with
    | Some bs, Some bs' => Some (bs ++ bs')
    | _, _ => None
    end
  end.

End Utf8.

Definition NL : char := 10.
Definition CR : char := 13.
Definition BACKSLASH : char := 92.

(** Python source literals: the file is UTF-8, and the escapes the script
    writes in ordinary string literals are [\n] and [\\]. *)
Fixpoint unescape (s : str) : str :=
  match s with
  | [] => []
  | c :: s' =>
    if bool_decide (c = BACKSLASH) then
      match s' with
      | 110 :: s'' => NL :: unescape s''
      | 92 :: s'' => BACKSLASH :: unescape s''
      | _ => c :: unescape s'
      end
    else c :: unescape s'
  end.

Definition raw (lit : string) : str :=
  default [] (Utf8.decode (list_byte_of_string lit)).

Definition py (lit : string) : str := unescape (raw lit).

(** [str.isspace] for one character, which is also what [\s] matches in a
    [str] pattern and what [strip()] and [split()] remove. *)
Definition isspace (c : char) : bool :=
  Utf8.between 0x09 0x0D c || Utf8.between 0x1C 0x20 c
  || (c =? 0x85) || (c =? 0xA0) || (c =? 0x1680)
  || Utf8.between 0x2000 0x200A c
  || (c =? 0x2028) || (c =? 0x2029) || (c =? 0x202F) || (c =? 0x205F)
  || (c =? 0x3000).

Fixpoint lstrip (s : str) : str :=
  match s with
  | c :: s' => if isspace c then lstrip s' else s
  | [] => []
  end.

Definition rstrip (s : str) : str := reverse (lstrip (reverse s)).

(** [s.strip()] *)
Definition strip (s : str) : str := rstrip (lstrip s).

(** [s.split(sep)] for a one-character separator: never empty. *)
Fixpoint split_on (sep : char) (s : str) : list str :=
  match s with
  | [] => [[]]
  | c :: s' =>
    if bool_decide (c = sep) then [] :: split_on sep s'
    else match split_on sep s' with
         | l :: ls => (c :: l) :: ls
         | [] => [[c]]
         end
  end.

(** [s.split()]: maximal runs of non-space characters.  [tok] is the run
    being read. *)
Fixpoint split_ws_aux (tok : option str) (s : str) : list str :=
  match s with
  | [] => match tok with Some t => [t] | None => [] end
  | c :: s' =>
    if isspace c then
      match tok with
      | Some t => t :: split_ws_aux None s'
      | None => split_ws_aux None s'
      end
    else split_ws_aux (Some (default [] tok ++ [c])) s'
  end.

Definition split_ws (s : str) : list str := split_ws_aux None s.

Local Close Scope N_scope.

(** [s[a:b]] for [0 <= a], [0 <= b]: empty when [b <= a]. *)
Definition slice (s : str) (a b : nat) : str := take (b - a) (drop a s).


(** ** Regular expressions

    The constructs that occur in the script's five patterns. *)
Inductive regex : Type :=
  | Eps                          (* the empty pattern *)
  | Lit (c : char)               (* an ordinary character *)
  | Dot                          (* [.]: anything but a newline *)
  | Space                        (* [\s] *)
  | EndZ                         (* [\Z]: the very end of the text *)
  | Seq (r1 r2 : regex)          (* concatenation *)
  | Alt (r1 r2 : regex)          (* [r1|r2], [r1] first *)
  | Star (r : regex)             (* [r*], greedy *)
  | PlusLazy (r : regex)         (* [r+?], lazy *)
  | Group (r : regex).           (* [(r)], capturing group 1 *)

Declare Scope regex_scope.
Delimit Scope regex_scope with re.
Bind Scope regex_scope with regex.
Infix "·" := Seq (at level 41, right associativity) : regex_scope.

(** A run of ordinary characters. *)
Fixpoint lits (s : str) : regex :=
  match s with
  | [] => Eps
  | c :: s' => Seq (Lit c) (lits s')
  end.

(** The characters [re] gives a meaning of their own; a text without them
    is a pattern that matches itself. *)
Definition is_meta (c : char) : bool :=
  bool_decide (c ∈ raw ".^$*+?{}[]\|()").

Section Matcher.
Context {R : Type}.

(** What remains to be matched after a sub-pattern: it receives the
    rest of the text and the capture. *)
Definition konts : Type := str → option str → option R.

Definition advanced (s s' : str) : bool :=
  bool_decide (length s' < length s).

(** [r*]: another round of the body first, the continuation second. *)
Fixpoint greedy_loop (body : str → option str → konts → option R)
    (fuel : nat) (s : str) (g : option str) (k : konts) : option R :=
  match fuel with
  | O => k s g
  | S fuel' =>
    match body s g (λ s' g',
            if advanced s s' then greedy_loop body fuel' s' g' k
            else None) with
    | Some x => Some x
    | None => k s g
    end
  end.

(** The tail of [r+?]: the continuation first, another round second. *)
Fixpoint lazy_loop (body : str → option str → konts → option R)
    (fuel : nat) (s : str) (g : option str) (k : konts) : option R :=
  match k s g with
  | Some x => Some x
  | None =>
    match fuel with
    | O => None
    | S fuel' =>
      body s g (λ s' g',
        if advanced s s' then lazy_loop body fuel' s' g' k else None)
    end
  end.

(** Backtracking in the order of [re]: the first success wins. *)
Fixpoint run (r : regex) (s : str) (g : option str) (k : konts)
    {struct r} : option R :=
  match r with
  | Eps => k s g
  | Lit c =>
    match s with
    | c' :: s' => if bool_decide (c' = c) then k s' g else None
    | [] => None
    end
  | Dot =>
    match s with
    | c' :: s' => if bool_decide (c' = NL) then None else k s' g
    | [] => None
    end
  | Space =>
    match s with
    | c' :: s' => if isspace c' then k s' g else None
    | [] => None
    end
  | EndZ => match s with [] => k [] g | _ :: _ => None end
  | Seq r1 r2 => run r1 s g (λ s' g', run r2 s' g' k)
  | Alt r1 r2 =>
    match run r1 s g k with
    | Some x => Some x
    | None => run r2 s g k
    end
  | Star r' => greedy_loop (run r') (length s) s g k
  | PlusLazy r' =>
    run r' s g (λ s' g', lazy_loop (run r') (length s') s' g' k)
  | Group r' =>
    run r' s g (λ s' _, k s' (Some (take (length s - length s') s)))
  end.
(** A success of [body] is a success of its continuation after some
    word in [P]; without a group in [body] the capture is untouched. *)
Definition sound_body (keeps : bool) (P : str → str → Prop)
    (body : str → option str → konts → option R) : Prop :=
  ∀ (s : str) (g : option str) (k : konts) x, body s g k = Some x →
    ∃ w rest g', s = w ++ rest ∧ P w rest ∧ k rest g' = Some x
                 ∧ (keeps = true → g' = g).

(** Whenever a word in [P] is followed by a text the continuation
    accepts, [body] succeeds (with that word or an earlier choice). *)
Definition complete_body (P : str → str → Prop)
    (body : str → option str → konts → option R) : Prop :=
  ∀ (w rest : str) (g : option str) (k : konts),
    P w rest → (∀ g', is_Some (k rest g')) →
    is_Some (body (w ++ rest) g k).
End Matcher.

(** A match object: [start()], [end()] and [group(1)]. *)
Record re_match : Type := MkMatch {
  m_start : nat;
  m_end : nat;
  m_group1 : option str
}.

(** An attempt at one position. *)
Definition match_here (r : regex) (s : str) : option (str * option str) :=
  run r s None (λ s' g, Some (s', g)).

(** [re.search]: the attempts go from the left, up to and including the
    end of the text.  [s] is the text from [pos] on. *)
Fixpoint search_from (r : regex) (pos : nat) (s : str) : option re_match :=
  match match_here r s with
  | Some (rest, g) =>
    Some (MkMatch pos (pos + (length s - length rest)) g)
  | None =>
    match s with
    | [] => None
    | _ :: s' => search_from r (S pos) s'
    end
  end.

Definition re_search (r : regex) (s : str) : option re_match :=
  search_from r 0 s.

(** ** Python's insertion-ordered [dict] with [str] keys *)

Definition dict (V : Type) : Type := list (str * V).

Fixpoint dict_get {V} (d : dict V) (k : str) : option V :=
  match d with
  | [] => None
  | (k', v) :: d' => if decide (k' = k) then Some v else dict_get d' k
  end.

(** [d[k] = v]: an existing key keeps its place, a new one goes last. *)
Fixpoint dict_set {V} (d : dict V) (k : str) (v : V) : dict V :=
  match d with
  | [] => [(k, v)]
  | (k', v') :: d' =>
    if decide (k' = k) then (k', v) :: d' else (k', v') :: dict_set d' k v
  end.

Definition dict_keys {V} (d : dict V) : list str := d.*1.
Global Arguments dict_keys : simpl never.

(** [d[k1][k2] = v], the inner dict being shared with [d]. *)
Definition dict_set2 {V} (d : dict (dict V)) (k1 k2 : str) (v : V)
    : dict (dict V) :=
  match dict_get d k1 with
  | Some inner => dict_set d k1 (dict_set inner k2 v)
  | None => d
  end.

(** ** The script *)

Definition clubs : list str :=
  [py "Arsenal"; py "Aston Villa"; py "Bournemouth"; py "Brentford";
   py "Brighton"; py "Chelsea"; py "Crystal Palace"; py "Everton";
   py "Fulham"; py "Ipswich"; py "Leicester"; py "Liverpool";
   py "Man City"; py "Man Utd"; py "Newcastle"; py "Nott'm Forest";
   py "Southampton"; py "Spurs"; py "West Ham"; py "Wolves"].

Definition PENALTIES : str := py "Penalties".
Definition DIRECT : str := py "Direct free-kicks".
Definition CORNERS : str := py "Corners & indirect free-kicks".

(** [(?:.*\n)+?] *)
Definition lines_lazy : regex := PlusLazy (Star Dot · Lit NL).

(** [f"{club}\\s*\\nPenalties"] *)
Definition club_pattern (club : str) : regex :=
  lits club · Star Space · Lit NL · lits PENALTIES.

(** [r"Penalties\s*\n((?:.*\n)+?)Direct free-kicks"] *)
Definition penalties_re : regex :=
  lits PENALTIES · Star Space · Lit NL · Group lines_lazy · lits DIRECT.

(** [r"Direct free-kicks\s*\n((?:.*\n)+?)Corners & indirect free-kicks"] *)
Definition free_kicks_re : regex :=
  lits DIRECT · Star Space · Lit NL · Group lines_lazy · lits CORNERS.

(** [r"Corners & indirect free-kicks\s*\n((?:.*\n)+?)(?:\n\n|\Z)"] *)
Definition corners_re : regex :=
  lits CORNERS · Star Space · Lit NL · Group lines_lazy
  · Alt (Lit NL · Lit NL) EndZ.

(** [m.group(1)]; in the three patterns above the group takes part in
    every match. *)
Definition group1 (m : re_match) : str := default [] (m_group1 m).

Definition truthy (s : str) : bool := bool_decide (s ≠ []).

(** [[p.strip() for p in text.split('\n') if p.strip()]] *)
Definition stripped_lines (text : str) : list str :=
  strip <$> filter (λ p, truthy (strip p)) (split_on NL text).

(** The loop over [corners_lines]; the state is
    [(corner_takers, notes, in_notes)]. *)
Definition classify_step (st : list str * list str * bool) (line : str)
    : list str * list str * bool :=
  let '(corner_takers, notes, in_notes) := st in
  let line := strip line in
  if negb (truthy line) then st
  else
    let words := split_ws line in
    if bool_decide (length words ≤ 2) && negb in_notes
    then (corner_takers ++ [line], notes, in_notes)
    else (corner_takers, notes ++ [line], true).

Definition classify (corners_lines : list str) : list str * list str :=
  (foldl classify_step ([], [], false) corners_lines).1.

Definition F_PENALTIES : str := py "penalties".
Definition F_DIRECT : str := py "direct_free_kicks".
Definition F_CORNERS : str := py "corners_indirect_free_kicks".
Definition F_NOTES : str := py "notes".

Definition report : Type := dict (dict (list str)).

(** The part of the loop body that reads [club_section]. *)
Definition fill_club (club_section : str) (club : str) (data : report)
    : report :=
  let data :=
    dict_set data club
      [(F_PENALTIES, []); (F_DIRECT, []); (F_CORNERS, []); (F_NOTES, [])] in
  let data :=
    match re_search penalties_re club_section with
    | Some penalties_match =>
      let penalties_text := strip (group1 penalties_match) in
      dict_set2 data club F_PENALTIES (stripped_lines penalties_text)
    | None => data
    end in
  let data :=
    match re_search free_kicks_re club_section with
    | Some free_kicks_match =>
      let free_kicks_text := strip (group1 free_kicks_match) in
      dict_set2 data club F_DIRECT (stripped_lines free_kicks_text)
    | None => data
    end in
  match re_search corners_re club_section with
  | Some corners_match =>
    let corners_text := strip (group1 corners_match) in
    let corners_lines := split_on NL corners_text in
    let '(corner_takers, notes) := classify corners_lines in
    let data := dict_set2 data club F_CORNERS corner_takers in
    dict_set2 data club F_NOTES notes
  | None => data
  end.

(** Where the section of [clubs[i]] ends, its own anchor being found. *)
Definition section_end (content : str) (i : nat) : nat :=
  let end_pos := length content in
  if bool_decide (i < length clubs - 1) then
    match re_search (club_pattern (clubs !!! (i + 1))) content with
    | Some next_start => m_start next_start
    | None => end_pos
    end
  else end_pos.

(** One round of [for i, club in enumerate(clubs)]. *)
Definition process_club (content : str) (data : report) (ic : nat * str)
    : report :=
  let '(i, club) := ic in
  match re_search (club_pattern club) content with
  | Some start_idx =>
    let start_pos := m_start start_idx in
    let end_pos := section_end content i in
    let club_section := slice content start_pos end_pos in
    fill_club club_section club data
  | None => data
  end.

Global Arguments process_club : simpl never.

Definition enumerate {A} (l : list A) : list (nat * A) :=
  zip (seq 0 (length l)) l.

(** [set_piece_data] when the loop is over. *)
Definition extract (content : str) : report :=
  foldl (process_club content) [] (enumerate clubs).

(** ** [json.dump(set_piece_data, f, indent=4, ensure_ascii=False)]

    The encoder of Python's [json] on the values the script builds:
    a dict of dicts of lists of strings. *)

Module Json.
Local Open Scope N_scope.

Definition hex_digit (n : N) : char :=
  if n <? 10 then 48 + n else 87 + n.

(** ['\\u{0:04x}'.format(n)] *)
Definition u_escape (n : N) : str :=
  [92; 117; hex_digit (n / 4096 mod 16); hex_digit (n / 256 mod 16);
   hex_digit (n / 16 mod 16); hex_digit (n mod 16)].

(** One character of a string; [ensure_ascii] decides about the
    characters outside [' '..'~']. *)
Definition escape_char (ensure_ascii : bool) (c : char) : str :=
  if c =? 92 then [92; 92]
  else if c =? 34 then [92; 34]
  else if c =? 8 then [92; 98]
  else if c =? 12 then [92; 102]
  else if c =? 10 then [92; 110]
  else if c =? 13 then [92; 114]
  else if c =? 9 then [92; 116]
  else if c <? 32 then u_escape c
  else if negb ensure_ascii || (c <? 127) then [c]
  else if c <? 65536 then u_escape c
  else
    let n := c - 65536 in
    u_escape (55296 + (n / 1024) mod 1024) ++ u_escape (56320 + n mod 1024).

Definition encode_str (ensure_ascii : bool) (s : str) : str :=
  [34] ++ mbind (escape_char ensure_ascii) s ++ [34].

Local Close Scope N_scope.

(** ['\n' + ' ' * (indent * level)] *)
Definition newline_indent (indent level : nat) : str :=
  NL :: replicate (indent * level) 32%N.

Fixpoint join (sep : str) (items : list str) : str :=
  match items with
  | [] => []
  | [x] => x
  | x :: rest => x ++ sep ++ join sep rest
  end.

(** A list or a dict at nesting depth [level], its items being encoded
    already; the item separator is [','] since [indent] is given. *)
Definition container (indent level : nat) (opening closing : char)
    (items : list str) : str :=
  match items with
  | [] => [opening; closing]
  | _ =>
    [opening] ++ newline_indent indent (S level)
    ++ join ([44%N] ++ newline_indent indent (S level)) items
    ++ newline_indent indent level ++ [closing]
  end.

Definition encode_list (indent : nat) (ensure_ascii : bool) (level : nat)
    (l : list str) : str :=
  container indent level 91%N 93%N (encode_str ensure_ascii <$> l).

(** [key: value], the key separator being [': ']. *)
Definition member (ensure_ascii : bool) (key : str) (value : str) : str :=
  encode_str ensure_ascii key ++ [58%N; 32%N] ++ value.

Definition encode_record (indent : nat) (ensure_ascii : bool) (level : nat)
    (rec : dict (list str)) : str :=
  container indent level 123%N 125%N
    ((λ kv, member ensure_ascii kv.1
              (encode_list indent ensure_ascii (S level) kv.2)) <$> rec).

Definition dumps (data : report) (indent : nat) (ensure_ascii : bool) : str :=
  container indent 0 123%N 125%N
    ((λ kv, member ensure_ascii kv.1
              (encode_record indent ensure_ascii 1 kv.2)) <$> data).
End Json.

(** ** Files and the whole run *)

Inductive exn : Type :=
  | FileNotFoundError
  | PermissionError
  | UnicodeDecodeError
  | UnicodeEncodeError
  | OSError
  | BrokenPipeError
  | ValueError.

Inductive result (A : Type) : Type :=
  | Ok (a : A)
  | Raise (e : exn).
Global Arguments Ok {A} a.
Global Arguments Raise {A} e.

(** What [sys.stdout] does with a write: it takes it, its reader is gone,
    or it was closed. *)
Inductive stream : Type :=
  | Open
  | Broken
  | Closed.

Definition stream_error (s : stream) : option exn :=
  match s with
  | Open => None
  | Broken => Some BrokenPipeError
  | Closed => Some ValueError
  end.

(** The world the script runs in: the files of the working directory, the
    paths [open] is refused on, what was printed, the number of bytes the
    device takes for a file that is written ([None]: as many as come), and
    the state of [sys.stdout]. *)
Record world : Type := World {
  files : gmap string bytes;
  denied : gset string;
  stdout : str;
  space : option nat;
  stdout_state : stream
}.

Definition set_file (w : world) (path : string) (bs : bytes) : world :=
  World (<[path := bs]> (files w)) (denied w) (stdout w) (space w)
        (stdout_state w).

(** Text mode reads with universal newlines: [\r\n] and [\r] become [\n]. *)
Fixpoint universal_newlines (s : str) : str :=
  match s with
  | [] => []
  | c :: s' =>
    if bool_decide (c = CR) then
      NL :: match s' with
            | c' :: s'' => if bool_decide (c' = NL) then universal_newlines s''
                           else universal_newlines s'
            | [] => []
            end
    else c :: universal_newlines s'
  end.

(** [with open(path, 'r', encoding='utf-8') as f: f.read()] *)
Definition read_text (w : world) (path : string) : result str :=
  if decide (path ∈ denied w) then Raise PermissionError
  else match files w !! path with
       | None => Raise FileNotFoundError
       | Some bs =>
         match Utf8.decode bs with
         | None => Raise UnicodeDecodeError
         | Some s => Ok (universal_newlines s)
         end
       end.

Fixpoint encodable_prefix (s : str) : str :=
  match s with
  | [] => []
  | c :: s' =>
    match Utf8.encode_char c with
    | Some _ => c :: encodable_prefix s'
    | None => []
    end
  end.

(** The bytes of a file that was opened for writing go to the device, at
    the writes or when the file is closed.  A device that takes fewer
    bytes than there are raises [OSError], and the file, truncated when it
    was opened, keeps the bytes that were taken. *)
Definition store (w : world) (path : string) (bs : bytes)
    : result unit * world :=
  match space w with
  | Some k =>
    if decide (k < length bs)
    then (Raise OSError, set_file w path (take k bs))
    else (Ok (), set_file w path bs)
  | None => (Ok (), set_file w path bs)
  end.

(** [with open(path, 'w', encoding='utf-8') as f: f.write(text)].  Opening
    truncates or creates the file; newlines are written as they are, as
    on POSIX.  When a character has no encoding the write raises and the
    file keeps what went before (Python buffers by chunk, so it may keep
    a little less); [run_cases] below shows that the script never gets
    there. *)
Definition write_text (w : world) (path : string) (text : str)
    : result unit * world :=
  if decide (path ∈ denied w) then (Raise PermissionError, w)
  else match Utf8.encode text with
       | Some bs => store w path bs
       | None =>
         match store w path (default [] (Utf8.encode (encodable_prefix text))) with
         | (Ok _, w') => (Raise UnicodeEncodeError, w')
         | failed => failed
         end
       end.

(** [print(line)]: the line and a newline go to [sys.stdout], which may
    raise. *)
Definition print (w : world) (line : str) : result unit * world :=
  match stream_error (stdout_state w) with
  | Some e => (Raise e, w)
  | None =>
    (Ok (), World (files w) (denied w) (stdout w ++ line ++ [NL]) (space w)
                  (stdout_state w))
  end.

Definition INPUT : string := "fpl_set_piece_takers.txt".
Definition OUTPUT : string := "set_piece_takers_structured.json".
Definition MESSAGE : str :=
  py "Structured set piece data extracted and saved to set_piece_takers_structured.json".

(** [extract_set_piece_data()] *)
Definition extract_set_piece_data (w : world) : result unit * world :=
  match read_text w INPUT with
  | Raise e => (Raise e, w)
  | Ok content =>
    let set_piece_data := extract content in
    match write_text w OUTPUT (Json.dumps set_piece_data 4 false) with
    | (Raise e, w') => (Raise e, w')
    | (Ok _, w') => print w' MESSAGE
    end
  end.

(** * Part II: the vocabulary of the statements *)

(** ** What a pattern matches

    [matches r w rest]: the pattern [r] matches the word [w] when [rest]
    follows it ([\Z] looks at what follows). *)

Inductive star_of (P : str → str → Prop) : str → str → Prop :=
  | star_nil rest : star_of P [] rest
  | star_cons w1 w2 rest :
      w1 ≠ [] → P w1 (w2 ++ rest) → star_of P w2 rest →
      star_of P (w1 ++ w2) rest.

Fixpoint matches (r : regex) (w rest : str) : Prop :=
  match r with
  | Eps => w = []
  | Lit c => w = [c]
  | Dot => ∃ c, w = [c] ∧ c ≠ NL
  | Space => ∃ c, w = [c] ∧ isspace c = true
  | EndZ => w = [] ∧ rest = []
  | Seq r1 r2 =>
    ∃ w1 w2, w = w1 ++ w2 ∧ matches r1 w1 (w2 ++ rest) ∧ matches r2 w2 rest
  | Alt r1 r2 => matches r1 w rest ∨ matches r2 w rest
  | Star r' => star_of (matches r') w rest
  | PlusLazy r' =>
    ∃ w1 w2, w = w1 ++ w2 ∧ matches r' w1 (w2 ++ rest)
             ∧ star_of (matches r') w2 rest
  | Group r' => matches r' w rest
  end.

(** The pattern matches somewhere in the text, from offset [p]. *)
Definition matches_at (r : regex) (s : str) (p : nat) : Prop :=
  ∃ w rest, drop p s = w ++ rest ∧ p ≤ length s ∧ matches r w rest.

Fixpoint no_group (r : regex) : bool :=
  match r with
  | Group _ => false
  | Seq r1 r2 | Alt r1 r2 => no_group r1 && no_group r2
  | Star r' | PlusLazy r' => no_group r'
  | _ => true
  end.

(** ** Words for the script's patterns *)

Definition spaces (ws : str) : Prop := Forall (λ c, isspace c = true) ws.

(** Lines, each with its newline. *)
Definition unlines (ls : list str) : str := concat ((λ l, l ++ [NL]) <$> ls).

(** [.*\n] *)
Definition line_re : regex := Star Dot · Lit NL.

(** The heading of a club's section stands at offset [p]: the club's name,
    optional whitespace, a newline, the word [Penalties]. *)
Definition anchor_at (club content : str) (p : nat) : Prop :=
  ∃ pre ws post,
    content = pre ++ club ++ ws ++ [NL] ++ PENALTIES ++ post
    ∧ length pre = p ∧ spaces ws.

(** ... and at no offset before [p]. *)
Definition first_anchor_at (club content : str) (p : nat) : Prop :=
  anchor_at club content p ∧ ∀ q, q < p → ¬ anchor_at club content q.

(** *** Laziness: [+?] stops at the first place where the rest of the
    pattern goes through *)

(** [lazy_run P fails w rest]: [w] is cut into non-empty words of [P], and
    before each of them the continuation was tried and failed. *)
Inductive lazy_run (P : str → str → Prop) (fails : str → Prop)
    : str → str → Prop :=
  | lazy_stop rest : lazy_run P fails [] rest
  | lazy_more w1 w2 rest :
      fails (w1 ++ w2 ++ rest) → w1 ≠ [] → P w1 (w2 ++ rest) →
      lazy_run P fails w2 rest →
      lazy_run P fails (w1 ++ w2) rest.

(** The rest of the pattern cannot start at the beginning of [s]. *)
Definition never_here (post : regex) (s : str) : Prop :=
  ∀ t rest, s = t ++ rest → ¬ matches post t rest.

(** The shape the three patterns of a section share. *)
Definition block_re (anchor : str) (post : regex) : regex :=
  lits anchor · Star Space · Lit NL · Group lines_lazy · post.

(** ** What one round of the loop stores *)

Definition penalties_of (club_section : str) : list str :=
  match re_search penalties_re club_section with
  | Some m => stripped_lines (strip (group1 m))
  | None => []
  end.

Definition direct_of (club_section : str) : list str :=
  match re_search free_kicks_re club_section with
  | Some m => stripped_lines (strip (group1 m))
  | None => []
  end.

Definition corners_notes_of (club_section : str) : list str * list str :=
  match re_search corners_re club_section with
  | Some m => classify (split_on NL (strip (group1 m)))
  | None => ([], [])
  end.

(** The record of a club whose section is [club_section]. *)
Definition club_record (club_section : str) : dict (list str) :=
  [(F_PENALTIES, penalties_of club_section);
   (F_DIRECT, direct_of club_section);
   (F_CORNERS, (corners_notes_of club_section).1);
   (F_NOTES, (corners_notes_of club_section).2)].

Definition found (content : str) (club : str) : bool :=
  bool_decide (is_Some (re_search (club_pattern club) content)).

(** ** Texts inside texts *)

Fixpoint is_infix (t s : str) : bool :=
  bool_decide (t `prefix_of` s)
  || match s with
     | [] => false
     | _ :: s' => is_infix t s'
     end.

(** ** Sample reports *)

Definition ARSENAL_SECTION : str :=
  py "Arsenal\nPenalties\nSaka\nDirect free-kicks\nTrossard\nCorners & indirect free-kicks\nSaka\nØdegaard\n\n".

Definition CHELSEA_SECTION : str :=
  py "Chelsea\nPenalties\nPalmer\nDirect free-kicks\nJames\nCorners & indirect free-kicks\nPalmer\nJames\n\n".

Definition ASTON_VILLA_SECTION : str :=
  py "Aston Villa\nPenalties\nWatkins\nDirect free-kicks\nDigne\nCorners & indirect free-kicks\nDigne\nMcGinn\n\n".

Definition EMPTY_RECORD : dict (list str) :=
  [(F_PENALTIES, []); (F_DIRECT, []); (F_CORNERS, []); (F_NOTES, [])].

(** ** Inside a section *)

(** [t] occurs in [s]. *)
Definition occurs_in (t s : str) : Prop := ∃ a c, s = a ++ t ++ c.

(** [t] occurs in [s] somewhere after an occurrence of [anchor]. *)
Definition occurs_after (anchor t s : str) : Prop :=
  ∃ a b, s = a ++ anchor ++ b ∧ occurs_in t b.

(** Some line of [s] after an occurrence of [anchor] starts with [t]. *)
Definition line_starts_after (anchor t s : str) : Prop :=
  occurs_after anchor ([NL] ++ t) s.

Definition ends_with_newline (s : str) : Prop := ∃ a, s = a ++ [NL].

(** What [classify] returns for a block of text. *)
Definition takers_and_notes (block : str) : list str * list str :=
  classify (split_on NL (strip block)).

Definition MIDLINE_DIRECT : str :=
  py "Arsenal\nPenalties\nSaka\nNote: Direct free-kicks\nTrossard\nCorners & indirect free-kicks\nSaka\n".

Definition NO_DIRECT : str :=
  py "Arsenal\nPenalties\nSaka\nCorners & indirect free-kicks\nRice\n".

Definition UNTERMINATED : str :=
  py "Arsenal\nPenalties\nSaka\nDirect free-kicks\nRice\nCorners & indirect free-kicks\nSaka\nRice".

Definition SPACE_LINE : str :=
  py "Arsenal\nPenalties\nSaka\nDirect free-kicks\nRice\nCorners & indirect free-kicks\nSaka\n \nRice\n".

Definition EMPTY_LINE : str :=
  py "Arsenal\nPenalties\nSaka\nDirect free-kicks\nRice\nCorners & indirect free-kicks\nSaka\n\nRice\n".

(** The block as the specification words it: the lines after the heading
    up to the first line of only whitespace, or all of them. *)
Fixpoint spec_block_lines (after_heading : list str) : list str :=
  match after_heading with
  | [] => []
  | l :: ls => if truthy (strip l) then l :: spec_block_lines ls else []
  end.

(** ** Takers and notes *)

(** The lines [classify] keeps: trimmed, the empty ones dropped. *)
Definition kept_lines (ls : list str) : list str :=
  filter (λ l, truthy l = true) (strip <$> ls).

Definition LATCH_LINES : list str :=
  [py "Saka"; py "Ødegaard";
   py "Set pieces depend on the opponent and situation"; py "Rice"].

Definition LATCH_SECTION : str :=
  py "Arsenal\nPenalties\nSaka\nDirect free-kicks\nRice\nCorners & indirect free-kicks\nSaka\nØdegaard\nSet pieces depend on the opponent and situation\nRice\n".

(** ** The end-to-end scenario *)

Definition ARSENAL_RECORD : dict (list str) :=
  [(F_PENALTIES, [py "Saka"]); (F_DIRECT, [py "Trossard"]);
   (F_CORNERS, [py "Saka"; py "Ødegaard"]); (F_NOTES, [])].

(** ** The shape of the JSON text *)

Definition SP : char := 32%N.
Definition QUOTE : char := 34%N.

(** From a newline on: [4k] spaces for a depth [k] of at most 3, then a
    character that is no space, then the rest of the line. *)
Definition seg_ok (seg : str) : Prop :=
  ∃ k c body,
    k ≤ 3 ∧ seg = NL :: replicate (4 * k) SP ++ c :: body
    ∧ c ≠ SP ∧ c ≠ NL ∧ NL ∉ body.

(** A first line, then such segments. *)
Definition indented (s : str) : Prop :=
  ∃ first segs,
    s = first ++ concat segs ∧ (NL ∉ first) ∧ Forall seg_ok segs.

(** A line indented by [0], [4], [8] or [12] spaces. *)
Definition line_ok (line : str) : Prop :=
  ∃ k c body, k ≤ 3 ∧ line = replicate (4 * k) SP ++ c :: body ∧ c ≠ SP.

(** [t] may follow any indented text. *)
Definition ext (t : str) : Prop := ∀ s, indented s → indented (s ++ t).

(** [t] opens with a double quote and may follow any indented text. *)
Definition quoted (t : str) : Prop := ∃ t', t = QUOTE :: t' ∧ ext t'.

(** *** The layout as the specification words it

    Pretty-printed JSON: four spaces for each level of nesting, one item
    a line, characters outside ASCII as they are. *)

Definition COMMA : char := 44%N.

(** The sixteen digits of a [\u] escape. *)
Definition hex (d : N) : char :=
  default 48%N (py "0123456789abcdef" !! N.to_nat d).

(** One character of a JSON string that keeps the characters outside
    ASCII: only the double quote, the backslash and the control characters
    below U+0020 are written as escapes. *)
Definition json_char (c : char) : str :=
  if bool_decide (c = QUOTE) then [BACKSLASH; QUOTE]
  else if bool_decide (c = BACKSLASH) then [BACKSLASH; BACKSLASH]
  else if bool_decide (c = NL) then BACKSLASH :: py "n"
  else if bool_decide (c = CR) then BACKSLASH :: py "r"
  else if bool_decide (c = 9%N) then BACKSLASH :: py "t"
  else if bool_decide (c = 8%N) then BACKSLASH :: py "b"
  else if bool_decide (c = 12%N) then BACKSLASH :: py "f"
  else if bool_decide (c < 32)%N
       then BACKSLASH :: py "u00" ++ [hex (c / 16); hex (c mod 16)]
  else [c].

Definition json_string (s : str) : str := [QUOTE] ++ (s ≫= json_char) ++ [QUOTE].

(** Four spaces for each level of nesting. *)
Definition pad (depth : nat) : str := replicate (4 * depth) SP.

(** A comma at the end of the last line. *)
Fixpoint add_comma (lines : list str) : list str :=
  match lines with
  | [] => []
  | [l] => [l ++ [COMMA]]
  | l :: ls => l :: add_comma ls
  end.

(** The lines of the items of a list or of an object, a comma after every
    item but the last. *)
Fixpoint comma_separated (items : list (list str)) : list str :=
  match items with
  | [] => []
  | [item] => item
  | item :: rest => add_comma item ++ comma_separated rest
  end.

(** A list of strings under its key, at nesting depth [depth]: the key and
    the opening bracket, one string per line one level deeper, the closing
    bracket; an empty list stays on the line of its key. *)
Definition list_lines (depth : nat) (kv : str * list str) : list str :=
  match kv.2 with
  | [] => [pad depth ++ json_string kv.1 ++ py ": []"]
  | vals =>
    [pad depth ++ json_string kv.1 ++ py ": ["]
    ++ comma_separated ((λ v, [pad (S depth) ++ json_string v]) <$> vals)
    ++ [pad depth ++ py "]"]
  end.

(** A record under its club. *)
Definition record_lines (depth : nat) (kv : str * dict (list str)) : list str :=
  match kv.2 with
  | [] => [pad depth ++ json_string kv.1 ++ py ": {}"]
  | fields =>
    [pad depth ++ json_string kv.1 ++ py ": {"]
    ++ comma_separated (list_lines (S depth) <$> fields)
    ++ [pad depth ++ py "}"]
  end.

(** The lines of the whole report. *)
Definition report_lines (data : report) : list str :=
  match data with
  | [] => [py "{}"]
  | _ =>
    [py "{"] ++ comma_separated (record_lines 1 <$> data) ++ [py "}"]
  end.

(** Lines put together, a newline between two of them and none at the
    end. *)
Definition lines_text (lines : list str) : str :=
  match lines with
  | [] => []
  | l :: ls => l ++ concat ((λ x, NL :: x) <$> ls)
  end.

(** The report as the specification words it: pretty-printed with four
    spaces a level, characters outside ASCII as they are. *)
Definition pretty (data : report) : str := lines_text (report_lines data).

(** The device takes all of [bs]. *)
Definition fits (w : world) (bs : bytes) : Prop :=
  match space w with
  | Some k => length bs ≤ k
  | None => True
  end.

(** ** The report as a whole *)

Definition FIELDS : list str := [F_PENALTIES; F_DIRECT; F_CORNERS; F_NOTES].

(** A Unicode scalar value: a code point that UTF-8 can encode. *)
Definition scalar (c : char) : Prop :=
  ((c < 0xD800) ∨ (0xDFFF < c))%N ∧ (c < 0x110000)%N.

(** A string of characters that need no escape. *)
Definition plain_text (s : str) : Prop :=
  Forall (λ c, (32 ≤ c)%N ∧ c ≠ QUOTE ∧ c ≠ BACKSLASH) s.

Definition SAMPLE_WORLD : world :=
  World {[ INPUT := default [] (Utf8.encode (ARSENAL_SECTION ++ ASTON_VILLA_SECTION)) ]}
        ∅ [] None Open.

Definition EMPTY_WORLD : world := World ∅ ∅ [] None Open.

Definition BAD_BYTES_WORLD : world := World {[ INPUT := [xff] ]} ∅ [] None Open.

(** ** Words for the further properties *)

(** A line of at most two words. *)
Definition short (line : str) : Prop := length (split_ws line) ≤ 2.

(** The leading short lines, and the rest from the first longer line on. *)
Fixpoint split_latch (kept : list str) : list str * list str :=
  match kept with
  | [] => ([], [])
  | k :: kept' =>
    if decide (short k)
    then (k :: (split_latch kept').1, (split_latch kept').2)
    else ([], k :: kept')
  end.

(** The trimmed non-empty lines of a text. *)
Definition text_lines (text : str) : list str := kept_lines (split_on NL text).

(** No whitespace at either end, no newline inside, and not empty. *)
Definition trimmed (s : str) : Prop :=
  s ≠ []
  ∧ (∀ c, head s = Some c → isspace c = false)
  ∧ (∀ c, last s = Some c → isspace c = false)
  ∧ NL ∉ s.

(** [v] is the trimmed, non-empty form of a piece of [s] without newline. *)
Definition line_of (s v : str) : Prop :=
  ∃ line, v = strip line ∧ v ≠ [] ∧ (NL ∉ line) ∧ occurs_in line s.

(** [t] stands at one place of [s] at most. *)
Definition occurs_once (t s : str) : Prop :=
  ∀ a b a' b', s = a ++ t ++ b → s = a' ++ t ++ b' → a = a'.

(** The number of places of [s] where [t] stands. *)
Fixpoint count_infix (t s : str) : nat :=
  (if bool_decide (t `prefix_of` s) then 1 else 0)
  + match s with
    | [] => 0
    | _ :: s' => count_infix t s'
    end.

(** A section in the expected layout, from its head and the lines of its
    three blocks. *)
Definition well_formed (head : str) (pens fks crs : list str) : str :=
  head ++ PENALTIES ++ [NL] ++ unlines pens
  ++ DIRECT ++ [NL] ++ unlines fks
  ++ CORNERS ++ [NL] ++ unlines crs.

(** The record expected of it. *)
Definition WELL_FORMED_RECORD (pens fks crs : list str) : dict (list str) :=
  [(F_PENALTIES, kept_lines pens); (F_DIRECT, kept_lines fks);
   (F_CORNERS, (split_latch (kept_lines crs)).1);
   (F_NOTES, (split_latch (kept_lines crs)).2)].

(** A section without the corners heading. *)
Definition NO_CORNERS : str :=
  py "Arsenal\nPenalties\nSaka\nDirect free-kicks\nTrossard\nRice\n".

(** A text without any heading. *)
Definition NO_HEADINGS : str := py "Arsenal\nSaka\nTrossard\n".

(** The input is there, the output file may not be opened. *)
Definition WRITE_DENIED_WORLD : world :=
  World {[ INPUT := default [] (Utf8.encode (ARSENAL_SECTION ++ ASTON_VILLA_SECTION)) ]}
        {[ OUTPUT ]} [] None Open.

(** The input is there, the device takes ten bytes of the output file. *)
Definition FULL_DISK_WORLD : world :=
  World {[ INPUT := default [] (Utf8.encode (ARSENAL_SECTION ++ ASTON_VILLA_SECTION)) ]}
        ∅ [] (Some 10) Open.

(** The input is there, nobody reads standard output any more. *)
Definition BROKEN_PIPE_WORLD : world :=
  World {[ INPUT := default [] (Utf8.encode (ARSENAL_SECTION ++ ASTON_VILLA_SECTION)) ]}
        ∅ [] None Broken.

(** The text with every newline written as carriage return, newline. *)
Fixpoint crlf (s : str) : str :=
  match s with
  | [] => []
  | c :: s' => if bool_decide (c = NL) then CR :: NL :: crlf s' else c :: crlf s'
  end.

(** The sample input saved with such line ends. *)
Definition CRLF_WORLD : world :=
  World {[ INPUT :=
             default [] (Utf8.encode (crlf (ARSENAL_SECTION ++ ASTON_VILLA_SECTION))) ]}
        ∅ [] None Open.

(** * Part III: lemmas and theorems *)

(** ** The matcher against the patterns' meaning *)

Section MatcherFacts.
Context {R : Type}.
Implicit Types (k : @konts R) (s w rest : str) (g : option str).

Lemma advanced_app w rest s :
  s = w ++ rest → advanced s rest = true → w ≠ [].
Proof.
  intros -> Hadv ->. unfold advanced in Hadv.
  apply bool_decide_eq_true in Hadv. simpl in Hadv. lia.
Qed.

Lemma greedy_loop_sound keeps P body fuel :
  sound_body keeps P body →
  sound_body keeps (star_of P) (λ s g k, greedy_loop body fuel s g k).
Proof.
  intros Hb. induction fuel as [|fuel IH]; intros s g k x; simpl.
  - intros Hk. exists [], s, g. repeat split; auto. constructor.
  - destruct (body s g _) as [y|] eqn:Hbody.
    + intros [= ->]. apply Hb in Hbody as (w1 & r1 & g1 & -> & HP & Hk & Hg).
      destruct (advanced _ r1) eqn:Hadv; [|done].
      apply IH in Hk as (w2 & rest & g2 & -> & Hstar & Hk & Hg2).
      exists (w1 ++ w2), rest, g2. rewrite <- (assoc_L (++)).
      repeat split; auto.
      * constructor; auto.
        eapply advanced_app; [reflexivity | exact Hadv].
      * intros Hkeep. rewrite Hg2, Hg; auto.
    + intros Hk. exists [], s, g. repeat split; auto. constructor.
Qed.

Lemma lazy_loop_sound keeps P body fuel :
  sound_body keeps P body →
  sound_body keeps (star_of P) (λ s g k, lazy_loop body fuel s g k).
Proof.
  intros Hb. induction fuel as [|fuel IH]; intros s g k x; simpl.
  - destruct (k s g) as [y|] eqn:Hk; [|done].
    intros [= ->]. exists [], s, g. repeat split; auto. constructor.
  - destruct (k s g) as [y|] eqn:Hk.
    + intros [= ->]. exists [], s, g. repeat split; auto. constructor.
    + intros Hbody.
      apply Hb in Hbody as (w1 & r1 & g1 & -> & HP & Hk1 & Hg).
      destruct (advanced _ r1) eqn:Hadv; [|done].
      apply IH in Hk1 as (w2 & rest & g2 & -> & Hstar & Hk2 & Hg2).
      exists (w1 ++ w2), rest, g2. rewrite <- (assoc_L (++)).
      repeat split; auto.
      * constructor; auto.
        eapply advanced_app; [reflexivity | exact Hadv].
      * intros Hkeep. rewrite Hg2, Hg; auto.
Qed.

Lemma run_sound r : sound_body (no_group r) (matches r) (run (R:=R) r).
Proof.
  induction r as [|c| | | |r1 IH1 r2 IH2|r1 IH1 r2 IH2|r IH|r IH|r IH];
    intros s g k x; simpl.
  - intros Hk. exists [], s, g. auto.
  - destruct s as [|c' s]; [done|]. case_bool_decide; [|done].
    subst c'. intros Hk. exists [c], s, g. auto.
  - destruct s as [|c' s]; [done|]. case_bool_decide; [done|].
    intros Hk. exists [c'], s, g. repeat split; eauto.
  - destruct s as [|c' s]; [done|].
    destruct (isspace c') eqn:Hc; [|done].
    intros Hk. exists [c'], s, g. repeat split; eauto.
  - destruct s as [|c' s]; [|done].
    intros Hk. exists [], [], g. auto.
  - intros Hrun.
    apply IH1 in Hrun as (w1 & s1 & g1 & -> & Hm1 & Hrun & Hg1).
    apply IH2 in Hrun as (w2 & rest & g2 & -> & Hm2 & Hk & Hg2).
    exists (w1 ++ w2), rest, g2. rewrite <- (assoc_L (++)).
    repeat split; eauto.
    intros [H1 H2]%andb_prop. rewrite Hg2, Hg1; auto.
  - destruct (run r1 s g k) as [y|] eqn:Hrun.
    + intros [= ->]. apply IH1 in Hrun as (w & rest & g' & -> & Hm & Hk & Hg).
      exists w, rest, g'. repeat split; auto.
      intros [H1 H2]%andb_prop; auto.
    + intros Hrun2. apply IH2 in Hrun2 as (w & rest & g' & -> & Hm & Hk & Hg).
      exists w, rest, g'. repeat split; auto.
      intros [H1 H2]%andb_prop; auto.
  - apply (greedy_loop_sound _ _ _ (length s) IH).
  - intros Hrun.
    apply IH in Hrun as (w1 & s1 & g1 & -> & Hm1 & Hloop & Hg1).
    apply (lazy_loop_sound _ _ _ (length s1) IH) in Hloop
      as (w2 & rest & g2 & -> & Hstar & Hk & Hg2).
    exists (w1 ++ w2), rest, g2. rewrite <- (assoc_L (++)).
    repeat split; eauto.
    intros Hkeep. rewrite Hg2, Hg1; auto.
  - intros Hrun.
    apply IH in Hrun as (w & rest & g' & -> & Hm & Hk & _).
    exists w, rest, (Some (take (length (w ++ rest) - length rest) (w ++ rest))).
    repeat split; auto. done.
Qed.
End MatcherFacts.

Section MatcherComplete.
Context {R : Type}.
Implicit Types (k : @konts R) (s w rest : str) (g : option str).

Lemma advanced_cons_app w1 w2 rest :
  w1 ≠ [] → advanced (w1 ++ w2 ++ rest) (w2 ++ rest) = true.
Proof.
  intros Hne. apply bool_decide_eq_true. rewrite !length_app.
  destruct w1; [done|]. simpl. lia.
Qed.

Lemma greedy_loop_complete P body w rest :
  complete_body P body → star_of P w rest →
  ∀ fuel g k, length (w ++ rest) ≤ fuel → (∀ g', is_Some (k rest g')) →
    is_Some (greedy_loop body fuel (w ++ rest) g k).
Proof.
  intros Hb Hstar.
  induction Hstar as [rest|w1 w2 rest Hne HP Hstar IH]; intros fuel g k Hfuel Hk.
  - destruct fuel as [|fuel]; simpl; [apply Hk|].
    destruct (body _ _ _); [eauto | apply Hk].
  - destruct fuel as [|fuel].
    { rewrite !length_app in Hfuel. destruct w1; [done|]. simpl in Hfuel. lia. }
    simpl. destruct (body _ _ _) as [y|] eqn:Hbody; [eauto|].
    exfalso. rewrite <- (assoc_L (++)) in Hbody.
    match type of Hbody with
    | body _ _ ?K = _ => destruct (Hb w1 (w2 ++ rest) g K HP) as [y Hy]
    end; [|congruence].
    intros g'. simpl. rewrite advanced_cons_app by done.
    apply IH; [|done]. rewrite !length_app in *. destruct w1; [done|].
    simpl in Hfuel. lia.
Qed.

Lemma lazy_loop_complete P body w rest :
  complete_body P body → star_of P w rest →
  ∀ fuel g k, length (w ++ rest) ≤ fuel → (∀ g', is_Some (k rest g')) →
    is_Some (lazy_loop body fuel (w ++ rest) g k).
Proof.
  intros Hb Hstar.
  induction Hstar as [rest|w1 w2 rest Hne HP Hstar IH]; intros fuel g k Hfuel Hk.
  - destruct fuel as [|fuel]; simpl; destruct (Hk g) as [y ->]; eauto.
  - destruct fuel as [|fuel].
    { rewrite !length_app in Hfuel. destruct w1; [done|]. simpl in Hfuel. lia. }
    simpl. destruct (k _ g); [eauto|].
    rewrite <- (assoc_L (++)). apply Hb; [done|].
    intros g'. simpl. rewrite advanced_cons_app by done.
    apply IH; [|done]. rewrite !length_app in *. destruct w1; [done|].
    simpl in Hfuel. lia.
Qed.

Lemma run_complete r : complete_body (matches r) (run (R:=R) r).
Proof.
  induction r as [|c| | | |r1 IH1 r2 IH2|r1 IH1 r2 IH2|r IH|r IH|r IH];
    intros w rest g k; simpl.
  - intros -> Hk. apply Hk.
  - intros -> Hk. simpl. rewrite bool_decide_eq_true_2 by done. apply Hk.
  - intros (c & -> & Hc) Hk. simpl. rewrite bool_decide_eq_false_2 by done.
    apply Hk.
  - intros (c & -> & Hc) Hk. simpl. rewrite Hc. apply Hk.
  - intros [-> ->] Hk. apply Hk.
  - intros (w1 & w2 & -> & Hm1 & Hm2) Hk. rewrite <- (assoc_L (++)).
    apply IH1; [done|]. intros g'. apply IH2; done.
  - intros Hm Hk. destruct (run r1 _ g k) as [y|] eqn:Hrun; [eauto|].
    destruct Hm as [Hm|Hm]; [|apply IH2; done].
    destruct (IH1 w rest g k Hm Hk) as [y Hy]. congruence.
  - intros Hstar Hk. eapply greedy_loop_complete; eauto.
  - intros (w1 & w2 & -> & Hm1 & Hstar) Hk. rewrite <- (assoc_L (++)).
    apply IH; [done|]. intros g'.
    eapply lazy_loop_complete; eauto.
  - intros Hm Hk. apply IH; [done|]. intros g'. apply Hk.
Qed.
End MatcherComplete.

Lemma take_app_length_sub (w rest : str) :
  take (length (w ++ rest) - length rest) (w ++ rest) = w.
Proof.
  rewrite length_app.
  replace (length w + length rest - length rest) with (length w) by lia.
  by rewrite take_app_length.
Qed.

Lemma length_app_sub (w rest : str) :
  length (w ++ rest) - length rest = length w.
Proof. rewrite length_app. lia. Qed.

(** The capture a group hands on is the word it matched. *)
Lemma run_group_sound {R} r s g (k : @konts R) x :
  run (Group r) s g k = Some x →
  ∃ w rest, s = w ++ rest ∧ matches r w rest ∧ k rest (Some w) = Some x.
Proof.
  simpl. intros Hrun.
  apply run_sound in Hrun as (w & rest & g' & -> & Hm & Hk & _).
  rewrite take_app_length_sub in Hk. eauto.
Qed.

(** *** One attempt *)

Lemma match_here_sound r s rest g :
  match_here r s = Some (rest, g) → ∃ w, s = w ++ rest ∧ matches r w rest.
Proof.
  unfold match_here. intros Hrun.
  apply run_sound in Hrun as (w & rest' & g' & -> & Hm & [= -> ->] & _).
  eauto.
Qed.

Lemma match_here_complete r w rest :
  matches r w rest → is_Some (match_here r (w ++ rest)).
Proof. intros Hm. apply run_complete; [done|]. intros g'. eauto. Qed.

(** *** [re.search] finds the leftmost offset with a match *)

Lemma matches_at_cons r c s p :
  matches_at r (c :: s) (S p) ↔ matches_at r s p.
Proof.
  unfold matches_at. simpl.
  split; intros (w & rest & Hd & Hle & Hm); exists w, rest;
    repeat split; auto; lia.
Qed.

Lemma matches_at_0 r s :
  matches_at r s 0 ↔ is_Some (match_here r s).
Proof.
  split.
  - intros (w & rest & Hd & _ & Hm). rewrite drop_0 in Hd. subst s.
    by apply match_here_complete.
  - intros [[rest g] Hs]. apply match_here_sound in Hs as (w & -> & Hm).
    exists w, rest. rewrite drop_0. repeat split; auto. lia.
Qed.

Lemma search_from_None r pos s :
  search_from r pos s = None → ∀ p, ¬ matches_at r s p.
Proof.
  revert pos. induction s as [|c s IH]; intros pos; simpl.
  - destruct (match_here r []) as [[rest g]|] eqn:Hh; [done|]. intros _ p Hp.
    assert (matches_at r [] 0) as H0.
    { destruct Hp as (w & rest & Hd & Hle & Hm). simpl in Hle.
      assert (p = 0) as -> by lia. exists w, rest. auto. }
    apply matches_at_0 in H0 as [? ?]. congruence.
  - destruct (match_here r (c :: s)) as [[rest g]|] eqn:Hh; [done|].
    intros Hs [|p] Hp.
    + apply matches_at_0 in Hp as [? ?]. congruence.
    + apply matches_at_cons in Hp. by eapply IH.
Qed.

Lemma search_from_hit r pos s rest g :
  match_here r s = Some (rest, g) →
  ∃ w, s = [] ++ w ++ rest ∧ matches r w rest
    ∧ match_here r (w ++ rest) = Some (rest, g)
    ∧ pos = pos + 0
    ∧ pos + (length s - length rest) = pos + length w.
Proof.
  intros Hh. destruct (match_here_sound _ _ _ _ Hh) as (w & -> & Hm).
  exists w. rewrite length_app_sub. repeat split; auto.
Qed.

Lemma search_from_Some r pos s m :
  search_from r pos s = Some m →
  ∃ pre w rest,
    s = pre ++ w ++ rest ∧ matches r w rest
    ∧ match_here r (w ++ rest) = Some (rest, m_group1 m)
    ∧ m_start m = pos + length pre
    ∧ m_end m = m_start m + length w
    ∧ ∀ p, p < length pre → ¬ matches_at r s p.
Proof.
  revert pos. induction s as [|c s IH]; intros pos; simpl.
  - destruct (match_here r []) as [[rest g]|] eqn:Hh; [|done].
    intros [= <-].
    destruct (search_from_hit r pos _ _ _ Hh) as (w & ? & ? & ? & ? & ?).
    exists [], w, rest. simpl. repeat split; auto. lia.
  - destruct (match_here r (c :: s)) as [[rest g]|] eqn:Hh.
    + intros [= <-].
      destruct (search_from_hit r pos _ _ _ Hh) as (w & ? & ? & ? & ? & ?).
      exists [], w, rest. simpl. repeat split; auto. lia.
    + intros Hs. apply IH in Hs as (pre & w & rest & -> & Hm & Hh' & Hst & Hen & Hmin).
      exists (c :: pre), w, rest. simpl. repeat split; auto; try lia.
      intros [|p] Hp Hat.
      * apply matches_at_0 in Hat as [? ?]. congruence.
      * apply matches_at_cons in Hat. apply (Hmin p); [lia | done].
Qed.

Lemma re_search_None r s :
  re_search r s = None ↔ ∀ p, ¬ matches_at r s p.
Proof.
  split; [apply search_from_None|].
  intros Hno. destruct (re_search r s) as [m|] eqn:Hs; [|done].
  apply search_from_Some in Hs as (pre & w & rest & -> & Hm & _).
  exfalso. apply (Hno (length pre)). exists w, rest.
  rewrite drop_app_length. repeat split; auto. rewrite length_app. lia.
Qed.

Lemma re_search_Some r s m :
  re_search r s = Some m →
  ∃ pre w rest,
    s = pre ++ w ++ rest ∧ matches r w rest
    ∧ match_here r (w ++ rest) = Some (rest, m_group1 m)
    ∧ m_start m = length pre
    ∧ m_end m = length pre + length w
    ∧ ∀ p, p < length pre → ¬ matches_at r s p.
Proof.
  intros Hs. apply search_from_Some in Hs
    as (pre & w & rest & -> & Hm & Hh & Hst & Hen & Hmin).
  exists pre, w, rest. repeat split; auto; lia.
Qed.

(** ** The script's patterns, piece by piece *)

Lemma matches_lits t w rest : matches (lits t) w rest ↔ w = t.
Proof.
  revert w. induction t as [|c t IH]; intros w; simpl; [done|].
  split.
  - intros (w1 & w2 & -> & -> & ->%IH). done.
  - intros ->. exists [c], t. repeat split. by apply IH.
Qed.

Lemma no_group_lits t : no_group (lits t) = true.
Proof. induction t; simpl; auto. Qed.

Lemma star_space w rest : star_of (matches Space) w rest ↔ spaces w.
Proof.
  split.
  - induction 1 as [|w1 w2 rest _ (c & -> & Hc) _ IH]; [constructor|].
    by constructor.
  - induction 1 as [|c w Hc _ IH]; [constructor|].
    change (c :: w) with ([c] ++ w). constructor; [done| |done].
    exists c. done.
Qed.

Lemma star_dot w rest : star_of (matches Dot) w rest ↔ NL ∉ w.
Proof.
  split.
  - induction 1 as [|w1 w2 rest _ (c & -> & Hc) _ IH]; [apply not_elem_of_nil|].
    simpl. apply not_elem_of_cons. done.
  - induction w as [|c w IH]; intros Hnl; [constructor|].
    apply not_elem_of_cons in Hnl as [Hc Hw].
    change (c :: w) with ([c] ++ w). constructor; [done| |auto].
    exists c. done.
Qed.

Lemma matches_line w rest :
  matches line_re w rest ↔ ∃ l, w = l ++ [NL] ∧ NL ∉ l.
Proof.
  unfold line_re. simpl. split.
  - intros (l & w2 & -> & Hl%star_dot & ->). eauto.
  - intros (l & -> & Hl). exists l, [NL]. repeat split. by apply star_dot.
Qed.

Lemma star_lines w rest :
  star_of (matches line_re) w rest ↔ ∃ ls, w = unlines ls ∧ Forall (λ l, NL ∉ l) ls.
Proof.
  split.
  - induction 1 as [|w1 w2 rest _ (l & -> & Hl)%matches_line _ (ls & -> & Hls)].
    + exists []. done.
    + exists (l :: ls). split; [done|]. by constructor.
  - intros (ls & -> & Hls). induction Hls as [|l ls Hl _ IH]; [constructor|].
    unfold unlines. simpl. constructor; [by destruct l| |done].
    apply matches_line. eauto.
Qed.

(** [(?:.*\n)+?] matches one line or more. *)
Lemma matches_lines_lazy w rest :
  matches lines_lazy w rest ↔
  ∃ l ls, w = unlines (l :: ls) ∧ Forall (λ l, NL ∉ l) (l :: ls).
Proof.
  unfold lines_lazy. simpl matches. fold line_re. split.
  - intros (w1 & w2 & -> & (l & -> & Hl)%matches_line & (ls & -> & Hls)%star_lines).
    exists l, ls. split; [done|]. by constructor.
  - intros (l & ls & -> & Hls). apply Forall_cons in Hls as [Hl Hls].
    exists (l ++ [NL]), (unlines ls). repeat split.
    + apply matches_line. eauto.
    + apply star_lines. eauto.
Qed.

Lemma matches_heading (a b : str) w rest :
  matches (lits a · Star Space · Lit NL · lits b) w rest ↔
  ∃ ws, w = a ++ ws ++ [NL] ++ b ∧ spaces ws.
Proof.
  simpl matches. split.
  - intros (w1 & ? & -> & ->%matches_lits & ws & ? & -> & Hws%star_space
            & ? & w4 & -> & -> & ->%matches_lits).
    eauto.
  - intros (ws & -> & Hws). exists a, (ws ++ [NL] ++ b).
    repeat split; [by apply matches_lits|].
    exists ws, ([NL] ++ b). repeat split; [by apply star_space|].
    exists [NL], b. repeat split. by apply matches_lits.
Qed.

Lemma matches_club_pattern club w rest :
  matches (club_pattern club) w rest ↔
  ∃ ws, w = club ++ ws ++ [NL] ++ PENALTIES ∧ spaces ws.
Proof. apply matches_heading. Qed.

Lemma anchor_at_matches club content p :
  anchor_at club content p ↔ matches_at (club_pattern club) content p.
Proof.
  unfold anchor_at, matches_at. split.
  - intros (pre & ws & post & -> & <- & Hws).
    exists (club ++ ws ++ [NL] ++ PENALTIES), post.
    rewrite drop_app_length, !length_app. repeat split.
    + by rewrite <- !(assoc_L (++)).
    + lia.
    + apply matches_club_pattern. eauto.
  - intros (w & rest & Hd & Hle & (ws & -> & Hws)%matches_club_pattern).
    exists (take p content), ws, rest. rewrite length_take_le by done.
    repeat split; [|done].
    rewrite <- (take_drop p content) at 1. rewrite Hd.
    by rewrite <- !(assoc_L (++)).
Qed.

Lemma search_club_None club content :
  re_search (club_pattern club) content = None ↔
  ∀ p, ¬ anchor_at club content p.
Proof.
  rewrite re_search_None. split; intros H p Hp; apply (H p);
    by apply anchor_at_matches.
Qed.

Lemma search_club_Some club content p :
  first_anchor_at club content p ↔
  ∃ m, re_search (club_pattern club) content = Some m ∧ m_start m = p.
Proof.
  split.
  - intros [Hat Hmin].
    destruct (re_search (club_pattern club) content) as [m|] eqn:Hs.
    + exists m. split; [done|].
      apply re_search_Some in Hs as (pre & w & rest & -> & Hm & _ & -> & _ & Hno).
      destruct (decide (length pre < p)) as [Hlt|Hge].
      { exfalso. apply (Hmin _ Hlt). apply anchor_at_matches.
        exists w, rest. rewrite drop_app_length, !length_app.
        repeat split; auto. lia. }
      destruct (decide (p < length pre)) as [Hlt|Hge']; [|lia].
      exfalso. apply (Hno _ Hlt). by apply anchor_at_matches.
    + exfalso. eapply search_club_None; eauto.
  - intros (m & Hs & <-).
    apply re_search_Some in Hs as (pre & w & rest & -> & Hm & _ & -> & _ & Hno).
    split.
    + apply anchor_at_matches. exists w, rest.
      rewrite drop_app_length, !length_app. repeat split; auto. lia.
    + intros q Hq Hat. apply (Hno _ Hq). by apply anchor_at_matches.
Qed.

(** *** Laziness: [+?] stops at the first place where the rest of the
    pattern goes through *)

Lemma lazy_run_impl P (f1 f2 : str → Prop) w rest :
  (∀ s, f1 s → f2 s) → lazy_run P f1 w rest → lazy_run P f2 w rest.
Proof. intros Hf. induction 1; constructor; auto. Qed.

Lemma lazy_loop_first {R} keeps P (body : str → option str → konts → option R) fuel :
  sound_body keeps P body →
  ∀ s g k x, lazy_loop body fuel s g k = Some x →
    ∃ w rest g', s = w ++ rest
      ∧ lazy_run P (λ s', ∃ g0, k s' g0 = None) w rest
      ∧ k rest g' = Some x.
Proof.
  intros Hb. induction fuel as [|fuel IH]; intros s g k x; simpl.
  - destruct (k s g) as [y|] eqn:Hk; [|done].
    intros [= ->]. exists [], s, g. repeat split; auto. constructor.
  - destruct (k s g) as [y|] eqn:Hk.
    + intros [= ->]. exists [], s, g. repeat split; auto. constructor.
    + intros Hbody.
      apply Hb in Hbody as (w1 & r1 & g1 & -> & HP & Hk1 & _).
      destruct (advanced _ r1) eqn:Hadv; [|done].
      apply IH in Hk1 as (w2 & rest & g2 & -> & Hrun & Hk2).
      exists (w1 ++ w2), rest, g2. rewrite <- (assoc_L (++)).
      repeat split; auto.
      constructor; eauto.
      eapply advanced_app; [reflexivity | exact Hadv].
Qed.

Lemma run_group_lazy_first {R} r s g (k : @konts R) x :
  run (Group (PlusLazy r)) s g k = Some x →
  ∃ w1 w2 rest,
    s = w1 ++ w2 ++ rest ∧ matches r w1 (w2 ++ rest)
    ∧ lazy_run (matches r) (λ s', ∃ g0, k s' g0 = None) w2 rest
    ∧ k rest (Some (w1 ++ w2)) = Some x.
Proof.
  simpl. intros Hrun.
  apply run_sound in Hrun as (w1 & s1 & g1 & -> & Hm1 & Hloop & _).
  apply (lazy_loop_first _ _ _ _ (run_sound r)) in Hloop
    as (w2 & rest & g2 & -> & Hlazy & Hk).
  exists w1, w2, rest. repeat split; auto.
  - eapply lazy_run_impl; [|exact Hlazy]. simpl. intros s' [g0 Hg0]. eauto.
  - rewrite (assoc_L (++)), take_app_length_sub in Hk. done.
Qed.

Lemma lazy_run_lines fails w rest :
  lazy_run (matches line_re) fails w rest →
  ∃ ls, w = unlines ls ∧ Forall (λ l, NL ∉ l) ls
    ∧ ∀ i, i < length ls → fails (unlines (drop i ls) ++ rest).
Proof.
  induction 1 as [|w1 w2 rest Hf _ (l & -> & Hl)%matches_line _ (ls & -> & Hls & Hfs)].
  - exists []. repeat split; [constructor|]. simpl. lia.
  - exists (l :: ls). repeat split; [by constructor|].
    intros [|i] Hi.
    + simpl. unfold unlines. simpl. rewrite <- (assoc_L (++)). exact Hf.
    + simpl. apply Hfs. simpl in Hi. lia.
Qed.

Lemma unlines_snoc l ls : ∃ x, unlines (l :: ls) = x ++ [NL].
Proof.
  revert l. induction ls as [|l' ls IH]; intros l.
  - exists l. unfold unlines. simpl. by rewrite app_nil_r.
  - destruct (IH l') as [x Hx]. exists ((l ++ [NL]) ++ x).
    change (unlines (l :: l' :: ls)) with ((l ++ [NL]) ++ unlines (l' :: ls)).
    by rewrite Hx, <- !(assoc_L (++)).
Qed.

Lemma block_match_here anchor post s rest g :
  no_group post = true →
  match_here (block_re anchor post) s = Some (rest, g) →
  ∃ ws l ls t,
    s = anchor ++ ws ++ [NL] ++ unlines (l :: ls) ++ t ++ rest
    ∧ spaces ws ∧ Forall (λ l, NL ∉ l) (l :: ls)
    ∧ matches post t rest
    ∧ g = Some (unlines (l :: ls))
    ∧ ∀ j, 0 < j < length (l :: ls) →
        never_here post (unlines (drop j (l :: ls)) ++ t ++ rest).
Proof.
  intros Hpost. unfold match_here, block_re.
  change (run (?a · ?b) ?s ?g ?k) with (run a s g (λ s' g', run b s' g' k)).
  intros Hrun.
  apply run_sound in Hrun as (? & s1 & g1 & -> & ->%matches_lits & Hrun & _).
  cbv beta in Hrun.
  change (run (?a · ?b) ?s ?g ?k) with (run a s g (λ s' g', run b s' g' k)) in Hrun.
  apply run_sound in Hrun as (ws & s2 & g2 & -> & Hws%star_space & Hrun & _).
  cbv beta in Hrun.
  change (run (?a · ?b) ?s ?g ?k) with (run a s g (λ s' g', run b s' g' k)) in Hrun.
  apply run_sound in Hrun as (? & s3 & g3 & -> & -> & Hrun & _).
  cbv beta in Hrun.
  change (run (?a · ?b) ?s ?g ?k) with (run a s g (λ s' g', run b s' g' k)) in Hrun.
  apply run_group_lazy_first in Hrun
    as (w1 & w2 & s4 & -> & (l & -> & Hl)%matches_line & Hlazy & Hrun).
  apply lazy_run_lines in Hlazy as (ls & -> & Hls & Hfail).
  apply run_sound in Hrun as (t & rest' & g' & -> & Hm & [= -> ->] & Hg).
  exists ws, l, ls, t. repeat split; auto.
  - unfold unlines. simpl. by rewrite <- !(assoc_L (++)).
  - intros [|j] [Hj1 Hj2]; [lia|]. simpl in Hj2.
    destruct (Hfail j) as [g0 Hg0]; [lia|].
    simpl. intros t' rest' Heq Hm'. cbv beta in Hg0. rewrite Heq in Hg0.
    destruct (run_complete post t' rest' g0 (λ s' g, Some (s', g)) Hm')
      as [y Hy]; [eauto|]. congruence.
Qed.

Lemma block_search anchor post s m :
  no_group post = true →
  re_search (block_re anchor post) s = Some m →
  ∃ pre ws l ls t rest,
    s = pre ++ anchor ++ ws ++ [NL] ++ unlines (l :: ls) ++ t ++ rest
    ∧ spaces ws ∧ Forall (λ l, NL ∉ l) (l :: ls)
    ∧ matches post t rest
    ∧ m_group1 m = Some (unlines (l :: ls))
    ∧ m_start m = length pre
    ∧ ∀ j, 0 < j < length (l :: ls) →
        never_here post (unlines (drop j (l :: ls)) ++ t ++ rest).
Proof.
  intros Hpost Hs.
  apply re_search_Some in Hs as (pre & w & rest & -> & _ & Hh & Hst & _ & _).
  apply block_match_here in Hh
    as (ws & l & ls & t & Hw & Hws & Hls & Hm & Hg & Hmin); [|done].
  exists pre, ws, l, ls, t, rest. rewrite Hw. repeat split; auto.
Qed.

(** In a pattern of this shape the group takes part in every match, so
    [group(1)] is never [None]. *)
Lemma block_group_Some anchor post s m :
  no_group post = true →
  re_search (block_re anchor post) s = Some m →
  m_group1 m = Some (group1 m) ∧ group1 m ≠ [].
Proof.
  intros Hpost Hs.
  apply block_search in Hs
    as (pre & ws & l & ls & t & rest & _ & _ & _ & _ & Hg & _); [|done].
  unfold group1. rewrite Hg. split; [done|]. simpl.
  destruct (unlines_snoc l ls) as [x ->]. by destruct x.
Qed.

Lemma penalties_re_block : penalties_re = block_re PENALTIES (lits DIRECT).
Proof. reflexivity. Qed.

Lemma free_kicks_re_block : free_kicks_re = block_re DIRECT (lits CORNERS).
Proof. reflexivity. Qed.

Lemma corners_re_block :
  corners_re = block_re CORNERS (Alt (Lit NL · Lit NL) EndZ).
Proof. reflexivity. Qed.

(** ** The dict operations *)

Section DictFacts.
Context {V : Type}.
Implicit Types (d : dict V) (k : str) (v : V).

Lemma dict_get_set d k k' v :
  dict_get (dict_set d k v) k' =
  if decide (k = k') then Some v else dict_get d k'.
Proof.
  induction d as [|[k0 v0] d IH]; simpl.
  - repeat case_decide; congruence.
  - destruct (decide (k0 = k)) as [->|Hne]; simpl.
    + repeat case_decide; congruence.
    + rewrite IH. repeat case_decide; congruence.
Qed.

Lemma dict_set_set d k v v' :
  dict_set (dict_set d k v) k v' = dict_set d k v'.
Proof.
  induction d as [|[k0 v0] d IH]; simpl.
  - by rewrite decide_True.
  - destruct (decide (k0 = k)) as [->|Hne]; simpl.
    + by rewrite decide_True.
    + rewrite decide_False by done. by rewrite IH.
Qed.

Lemma dict_keys_cons k v d : dict_keys ((k, v) :: d) = k :: dict_keys d.
Proof. reflexivity. Qed.

Lemma dict_get_None d k : dict_get d k = None ↔ k ∉ dict_keys d.
Proof.
  induction d as [|[k0 v0] d IH].
  - split; [intros _; apply not_elem_of_nil | done].
  - rewrite dict_keys_cons, not_elem_of_cons. simpl. case_decide as Hk.
    + split; [done|]. intros [Hne _]. congruence.
    + rewrite IH. split; [|by intros [_ ?]]. intros ?. split; congruence.
Qed.

Lemma dict_get_elem_of d k v : dict_get d k = Some v → (k, v) ∈ d.
Proof.
  induction d as [|[k0 v0] d IH]; simpl; [done|].
  case_decide.
  - intros [= ->]. subst. left.
  - intros Hd. right. auto.
Qed.

(** A new key goes to the end. *)
Lemma dict_keys_set_new d k v :
  k ∉ dict_keys d → dict_keys (dict_set d k v) = dict_keys d ++ [k].
Proof.
  induction d as [|[k0 v0] d IH]; [done|].
  rewrite dict_keys_cons, not_elem_of_cons. intros [Hne Hk].
  simpl dict_set. rewrite decide_False by done.
  rewrite dict_keys_cons, IH by done. done.
Qed.

(** An old key stays where it is. *)
Lemma dict_keys_set_old d k v :
  k ∈ dict_keys d → dict_keys (dict_set d k v) = dict_keys d.
Proof.
  induction d as [|[k0 v0] d IH].
  - intros []%elem_of_nil.
  - simpl dict_set. destruct (decide (k0 = k)) as [->|Hne]; [done|].
    rewrite !dict_keys_cons, elem_of_cons. intros [->|Hk]; [done|].
    by rewrite IH.
Qed.
End DictFacts.

(** ** One round of the loop *)

Lemma fill_club_record club_section club data :
  fill_club club_section club data = dict_set data club (club_record club_section).
Proof.
  unfold fill_club, club_record, penalties_of, direct_of, corners_notes_of,
    dict_set2.
  destruct (re_search penalties_re club_section) as [m1|];
    destruct (re_search free_kicks_re club_section) as [m2|];
    destruct (re_search corners_re club_section) as [m3|];
    try destruct (classify _) as [takers notes];
    repeat (rewrite dict_get_set, decide_True by done; rewrite dict_set_set);
    reflexivity.
Qed.

Lemma process_club_record content data i club :
  process_club content data (i, club) =
  match re_search (club_pattern club) content with
  | Some m =>
    dict_set data club
      (club_record (slice content (m_start m) (section_end content i)))
  | None => data
  end.
Proof.
  unfold process_club. destruct (re_search _ content); [|done].
  apply fill_club_record.
Qed.

Lemma foldl_process_keys content ics data :
  NoDup (dict_keys data ++ ics.*2) →
  dict_keys (foldl (process_club content) data ics) =
  dict_keys data ++ filter (λ c, found content c = true) ics.*2.
Proof.
  revert data. induction ics as [|[i club] ics IH]; intros data Hnd; simpl.
  - by rewrite filter_nil, app_nil_r.
  - rewrite process_club_record, filter_cons.
    assert (club ∉ dict_keys data) as Hnew.
    { apply NoDup_app in Hnd as (_ & Hdis & _). intros Hin.
      apply (Hdis _ Hin). simpl. left. }
    destruct (re_search (club_pattern club) content) as [m|] eqn:Hs.
    + rewrite decide_True
        by (unfold found; rewrite Hs; apply bool_decide_eq_true; eauto).
      rewrite IH; rewrite dict_keys_set_new by done.
      * by rewrite <- (assoc_L (++)).
      * rewrite <- (assoc_L (++)). done.
    + rewrite decide_False.
      2:{ unfold found. rewrite Hs. intros [? [=]]%bool_decide_eq_true. }
      apply IH. simpl in Hnd.
      apply NoDup_app in Hnd as (H1 & H2 & H3).
      apply NoDup_app. repeat split; auto.
      * intros x Hx Hx'. apply (H2 x Hx). right. done.
      * by apply NoDup_cons in H3 as [_ ?].
Qed.

Lemma foldl_process_other content ics data club :
  club ∉ ics.*2 →
  dict_get (foldl (process_club content) data ics) club = dict_get data club.
Proof.
  revert data. induction ics as [|[i c] ics IH]; intros data Hnot; simpl; [done|].
  simpl in Hnot. apply not_elem_of_cons in Hnot as [Hne Hnot].
  rewrite IH by done. rewrite process_club_record.
  destruct (re_search _ content); [|done].
  rewrite dict_get_set, decide_False by done. done.
Qed.

Lemma foldl_process_get content ics data i club :
  NoDup ics.*2 → (i, club) ∈ ics →
  dict_get (foldl (process_club content) data ics) club =
  match re_search (club_pattern club) content with
  | Some m =>
    Some (club_record (slice content (m_start m) (section_end content i)))
  | None => dict_get data club
  end.
Proof.
  revert data. induction ics as [|[i0 c0] ics IH]; intros data Hnd Hin; simpl.
  - by apply elem_of_nil in Hin.
  - simpl in Hnd. apply NoDup_cons in Hnd as [Hnot Hnd].
    apply elem_of_cons in Hin as [[= <- <-]|Hin].
    + rewrite foldl_process_other by done. rewrite process_club_record.
      destruct (re_search _ content); [|done].
      by rewrite dict_get_set, decide_True.
    + rewrite IH by done. rewrite process_club_record.
      destruct (re_search (club_pattern club) content); [done|].
      destruct (re_search (club_pattern c0) content); [|done].
      rewrite dict_get_set, decide_False; [done|].
      intros ->. apply Hnot. apply list_elem_of_fmap. by exists (i, club).
Qed.

(** ** The roster *)

Lemma clubs_length : length clubs = 20.
Proof. reflexivity. Qed.

Lemma clubs_NoDup : NoDup clubs.
Proof. apply (bool_decide_unpack _). by vm_compute. Qed.

(** No club name holds a character that means something in a pattern, so
    putting the name into the pattern text matches the name itself. *)
Lemma clubs_plain : Forall (λ club, Forall (λ c, is_meta c = false) club) clubs.
Proof. apply (bool_decide_unpack _). by vm_compute. Qed.

Lemma enumerate_snd {A} (l : list A) : (enumerate l).*2 = l.
Proof. unfold enumerate. apply snd_zip. by rewrite length_seq. Qed.

Lemma elem_of_enumerate {A} (l : list A) i x :
  (i, x) ∈ enumerate l ↔ l !! i = Some x.
Proof.
  unfold enumerate. rewrite list_elem_of_lookup. split.
  - intros (j & Hj). apply lookup_zip_Some in Hj as [Hj1 Hj2].
    apply lookup_seq in Hj1 as [-> _]. done.
  - intros Hi. exists i. apply lookup_zip_Some. split; [|done].
    apply lookup_seq. split; [done|]. by eapply lookup_lt_Some.
Qed.

(** ** The loop as a whole *)

(** The keys of the result: the clubs whose heading is found, in the
    order of the roster. *)
Lemma extract_keys content :
  dict_keys (extract content) = filter (λ c, found content c = true) clubs.
Proof.
  unfold extract. rewrite foldl_process_keys.
  - by rewrite enumerate_snd.
  - rewrite enumerate_snd. apply clubs_NoDup.
Qed.

Lemma extract_get content i club :
  clubs !! i = Some club →
  dict_get (extract content) club =
  match re_search (club_pattern club) content with
  | Some m =>
    Some (club_record (slice content (m_start m) (section_end content i)))
  | None => None
  end.
Proof.
  intros Hi. unfold extract.
  rewrite (foldl_process_get content _ [] i club).
  - done.
  - rewrite enumerate_snd. apply clubs_NoDup.
  - by apply elem_of_enumerate.
Qed.

Lemma first_anchor_by_search_start club content m :
  re_search (club_pattern club) content = Some m →
  anchor_at club content (m_start m).
Proof.
  intros Hs. assert (first_anchor_at club content (m_start m)) as [? _]; [|done].
  apply search_club_Some. eauto.
Qed.

(** A club counts as found exactly when its heading stands somewhere. *)
Lemma found_spec content club :
  found content club = true ↔ ∃ p, anchor_at club content p.
Proof.
  unfold found. rewrite bool_decide_eq_true. split.
  - intros [m Hs]. exists (m_start m).
    by apply (first_anchor_by_search_start club content m).
  - intros [p Hp]. destruct (re_search _ content) as [m|] eqn:Hs; [eauto|].
    exfalso. eapply search_club_None; eauto.
Qed.

(** The record of a club whose heading is first found at offset [p]. *)
Lemma extract_record content i club p :
  clubs !! i = Some club → first_anchor_at club content p →
  dict_get (extract content) club =
  Some (club_record (slice content p (section_end content i))).
Proof.
  intros Hi (m & Hs & <-)%search_club_Some.
  rewrite (extract_get _ i) by done. by rewrite Hs.
Qed.

(** ** Texts inside texts *)

Lemma is_infix_spec t s : is_infix t s = true ↔ ∃ a c, s = a ++ t ++ c.
Proof.
  induction s as [|x s IH]; simpl.
  - rewrite orb_false_r, bool_decide_eq_true. split.
    + intros [c Hc]. exists [], c. done.
    + intros (a & c & Heq). symmetry in Heq.
      apply app_eq_nil in Heq as [-> [-> ->]%app_eq_nil]. done.
  - rewrite orb_true_iff, bool_decide_eq_true, IH. split.
    + intros [[c Hc]|(a & c & ->)].
      * exists [], c. done.
      * exists (x :: a), c. done.
    + intros ([|y a] & c & Heq).
      * left. exists c. done.
      * right. injection Heq as -> ->. eauto.
Qed.

(** [s[p:q]] is empty as soon as [q <= p]. *)
Lemma slice_empty s p q : q ≤ p → slice s p q = [].
Proof. intros Hle. unfold slice. by replace (q - p) with 0 by lia. Qed.

(** ** Sections and their bounds *)

Lemma first_anchor_by_search club content p :
  m_start <$> re_search (club_pattern club) content = Some p →
  first_anchor_at club content p.
Proof.
  intros Hs. apply search_club_Some.
  destruct (re_search _ content) as [m|]; [|done].
  injection Hs as <-. eauto.
Qed.

(** A heading that stands somewhere has a first place. *)
Lemma anchor_found_first club content p0 :
  anchor_at club content p0 →
  ∃ p, p ≤ p0 ∧ first_anchor_at club content p.
Proof.
  intros Hat.
  destruct (re_search (club_pattern club) content) as [m|] eqn:Hs.
  - exists (m_start m). split; [|apply search_club_Some; eauto].
    apply re_search_Some in Hs as (pre & w & rest & _ & _ & _ & -> & _ & Hno).
    destruct (decide (length pre ≤ p0)) as [|Hgt]; [done|].
    exfalso. apply (Hno p0); [lia|]. by apply anchor_at_matches.
  - exfalso. eapply search_club_None; eauto.
Qed.

Lemma no_anchor_by_search club content :
  re_search (club_pattern club) content = None →
  ∀ p, ¬ anchor_at club content p.
Proof. apply search_club_None. Qed.

(** The three cases of [end_pos]. *)
Lemma section_end_next content i next q :
  clubs !! (i + 1) = Some next →
  first_anchor_at next content q →
  section_end content i = q.
Proof.
  intros Hnext (m & Hs & <-)%search_club_Some. unfold section_end.
  rewrite bool_decide_eq_true_2.
  2:{ apply lookup_lt_Some in Hnext. lia. }
  rewrite (list_lookup_total_correct _ _ _ Hnext), Hs. done.
Qed.

Lemma section_end_last content i :
  i + 1 = length clubs → section_end content i = length content.
Proof.
  intros Hlast. unfold section_end.
  rewrite bool_decide_eq_false_2 by lia. done.
Qed.

Lemma section_end_absent content i next :
  clubs !! (i + 1) = Some next →
  (∀ q, ¬ anchor_at next content q) →
  section_end content i = length content.
Proof.
  intros Hnext Hno%search_club_None. unfold section_end.
  rewrite bool_decide_eq_true_2.
  2:{ apply lookup_lt_Some in Hnext. lia. }
  rewrite (list_lookup_total_correct _ _ _ Hnext), Hno. done.
Qed.

(** C5.  A club of the roster whose heading (the club's name, optional
    whitespace, a newline, the word [Penalties]) occurs nowhere in the
    text has no key in the result.  [extract] is a total function: there
    is no error to raise. *)
Theorem absent_club_has_no_key content club :
  club ∈ clubs →
  (∀ p, ¬ anchor_at club content p) →
  dict_get (extract content) club = None
  ∧ club ∉ dict_keys (extract content).
Proof.
  intros Hclub Hno. apply search_club_None in Hno.
  assert (dict_get (extract content) club = None) as Hget.
  { apply list_elem_of_lookup in Hclub as [i Hi].
    rewrite (extract_get _ i) by done. by rewrite Hno. }
  split; [done|]. by apply dict_get_None.
Qed.

Lemma absent_club_has_no_key_witness :
  dict_get (extract ARSENAL_SECTION) (py "Chelsea") = None
  ∧ py "Chelsea" ∉ dict_keys (extract ARSENAL_SECTION).
Proof.
  apply (absent_club_has_no_key ARSENAL_SECTION (py "Chelsea")).
  - apply (bool_decide_unpack _). by vm_compute.
  - apply no_anchor_by_search. by vm_compute.
Defined.

(** C4.  The section of the club at index [i], its heading being first
    found at [p], is [content[p:e]] where [e] is the offset of the first
    heading of the club at index [i+1], looked for from the start of the
    text; for the last club, and when the next club has no heading, [e]
    is the length of the text. *)
Theorem section_end_is_next_anchor content i club p :
  clubs !! i = Some club →
  first_anchor_at club content p →
  dict_get (extract content) club =
    Some (club_record (slice content p (section_end content i)))
  ∧ (∀ next q, clubs !! (i + 1) = Some next →
       first_anchor_at next content q → section_end content i = q)
  ∧ (i + 1 = length clubs → section_end content i = length content)
  ∧ (∀ next, clubs !! (i + 1) = Some next →
       (∀ q, ¬ anchor_at next content q) →
       section_end content i = length content).
Proof.
  intros Hi Hp. split; [by apply extract_record|]. repeat split.
  - apply section_end_next.
  - apply section_end_last.
  - apply section_end_absent.
Qed.

Lemma section_end_is_next_anchor_witness :
  section_end (ARSENAL_SECTION ++ ASTON_VILLA_SECTION) 0 = length ARSENAL_SECTION
  ∧ section_end (ARSENAL_SECTION ++ ASTON_VILLA_SECTION) 1
    = length (ARSENAL_SECTION ++ ASTON_VILLA_SECTION).
Proof.
  split.
  - refine (proj1 (proj2 (section_end_is_next_anchor
      (ARSENAL_SECTION ++ ASTON_VILLA_SECTION) 0 (py "Arsenal") 0 _ _))
      (py "Aston Villa") (length ARSENAL_SECTION) _ _).
    + reflexivity.
    + apply first_anchor_by_search. by vm_compute.
    + reflexivity.
    + apply first_anchor_by_search. by vm_compute.
  - refine (proj2 (proj2 (proj2 (section_end_is_next_anchor
      (ARSENAL_SECTION ++ ASTON_VILLA_SECTION) 1 (py "Aston Villa")
      (length ARSENAL_SECTION) _ _))) (py "Bournemouth") _ _).
    + reflexivity.
    + apply first_anchor_by_search. by vm_compute.
    + reflexivity.
    + apply no_anchor_by_search. by vm_compute.
Defined.

(** C9.  When the first heading of the next club of the roster stands
    earlier in the text than the club's own, the club's section is the
    empty text; the club still gets its record, with four empty lists. *)
Theorem out_of_order_section_is_empty content i club next p q :
  clubs !! i = Some club →
  clubs !! (i + 1) = Some next →
  first_anchor_at club content p →
  first_anchor_at next content q →
  q < p →
  slice content p (section_end content i) = []
  ∧ dict_get (extract content) club = Some EMPTY_RECORD.
Proof.
  intros Hi Hnext Hp Hq Hlt.
  rewrite (extract_record content i club p Hi Hp).
  rewrite (section_end_next content i next q Hnext Hq).
  rewrite slice_empty by lia. done.
Qed.

Lemma out_of_order_section_is_empty_witness :
  slice (ASTON_VILLA_SECTION ++ ARSENAL_SECTION) (length ASTON_VILLA_SECTION)
    (section_end (ASTON_VILLA_SECTION ++ ARSENAL_SECTION) 0) = []
  ∧ dict_get (extract (ASTON_VILLA_SECTION ++ ARSENAL_SECTION)) (py "Arsenal")
    = Some EMPTY_RECORD.
Proof.
  apply (out_of_order_section_is_empty
           (ASTON_VILLA_SECTION ++ ARSENAL_SECTION) 0 (py "Arsenal")
           (py "Aston Villa") (length ASTON_VILLA_SECTION) 0).
  - reflexivity.
  - reflexivity.
  - apply first_anchor_by_search. by vm_compute.
  - apply first_anchor_by_search. by vm_compute.
  - vm_compute. lia.
Defined.

(** ** Inside a section *)

Lemma occurs_in_infix t s : occurs_in t s ↔ is_infix t s = true.
Proof. symmetry. apply is_infix_spec. Qed.

Lemma occurs_after_occurs anchor t s : occurs_after anchor t s → occurs_in t s.
Proof.
  intros (a & b & -> & c & d & ->). exists (a ++ anchor ++ c), d.
  by rewrite <- !(assoc_L (++)).
Qed.

Lemma not_occurs_after anchor t s :
  is_infix t s = false → ¬ occurs_after anchor t s.
Proof.
  intros Hf Hocc%occurs_after_occurs%occurs_in_infix. congruence.
Qed.

Lemma not_ends_with_newline s : last s ≠ Some NL → ¬ ends_with_newline s.
Proof. intros Hl [a ->]. by rewrite last_snoc in Hl. Qed.

Lemma club_record_fields s :
  dict_get (club_record s) F_PENALTIES = Some (penalties_of s)
  ∧ dict_get (club_record s) F_DIRECT = Some (direct_of s)
  ∧ dict_get (club_record s) F_CORNERS = Some (corners_notes_of s).1
  ∧ dict_get (club_record s) F_NOTES = Some (corners_notes_of s).2.
Proof. repeat split. Qed.

(** A match of the penalties pattern ends in a line that starts with
    [Direct free-kicks]. *)
Lemma penalties_search_Some s m :
  re_search penalties_re s = Some m → line_starts_after PENALTIES DIRECT s.
Proof.
  rewrite penalties_re_block. intros Hs.
  apply block_search in Hs
    as (pre & ws & l & ls & t & rest & -> & _ & _ & ->%matches_lits & _);
    [|apply no_group_lits].
  destruct (unlines_snoc l ls) as [x ->].
  exists pre, (ws ++ [NL] ++ (x ++ [NL]) ++ DIRECT ++ rest). split; [done|].
  exists (ws ++ [NL] ++ x), rest. by rewrite <- !(assoc_L (++)).
Qed.

(** A match of the free-kicks pattern starts at an occurrence of
    [Direct free-kicks], wherever in a line it stands. *)
Lemma free_kicks_search_Some s m :
  re_search free_kicks_re s = Some m → occurs_in DIRECT s.
Proof.
  rewrite free_kicks_re_block. intros Hs.
  apply block_search in Hs
    as (pre & ws & l & ls & t & rest & -> & _); [|apply no_group_lits].
  exists pre. eauto.
Qed.

Lemma matches_terminator t rest :
  matches (Alt (Lit NL · Lit NL) EndZ) t rest ↔
  t = [NL; NL] ∨ (t = [] ∧ rest = []).
Proof.
  simpl. split.
  - intros [(? & ? & -> & -> & ->)|[-> ->]]; auto.
  - intros [->|[-> ->]]; [left|right; done]. exists [NL], [NL]. done.
Qed.

(** A match of the corners pattern is followed by two newlines or ends
    the section, right after a newline. *)
Lemma corners_search_Some s m :
  re_search corners_re s = Some m →
  occurs_after CORNERS [NL; NL] s ∨ ends_with_newline s.
Proof.
  rewrite corners_re_block. intros Hs.
  apply block_search in Hs
    as (pre & ws & l & ls & t & rest & -> & _ & _ & Ht%matches_terminator & _);
    [|done].
  destruct (unlines_snoc l ls) as [x ->].
  destruct Ht as [->|[-> ->]].
  - left. exists pre, (ws ++ [NL] ++ (x ++ [NL]) ++ [NL; NL] ++ rest).
    split; [done|]. exists (ws ++ [NL] ++ (x ++ [NL])), rest.
    by rewrite <- !(assoc_L (++)).
  - right. exists (pre ++ CORNERS ++ ws ++ [NL] ++ x).
    rewrite !app_nil_r. by rewrite <- !(assoc_L (++)).
Qed.

(** C6, as amended.  For a club whose heading is found, the record exists
    and (1) [penalties] is empty when no line after a [Penalties] heading
    of the section starts with [Direct free-kicks]; (2)
    [direct_free_kicks] is empty when the text [Direct free-kicks] occurs
    nowhere in the section, be it at the start of a line or inside one. *)
Theorem no_direct_heading content i club p :
  clubs !! i = Some club →
  first_anchor_at club content p →
  ∃ rec,
    dict_get (extract content) club = Some rec
    ∧ (¬ line_starts_after PENALTIES DIRECT
           (slice content p (section_end content i)) →
       dict_get rec F_PENALTIES = Some [])
    ∧ (¬ occurs_in DIRECT (slice content p (section_end content i)) →
       dict_get rec F_DIRECT = Some []).
Proof.
  intros Hi Hp. eexists. split; [by apply (extract_record _ i)|].
  set (s := slice content p (section_end content i)).
  destruct (club_record_fields s) as (-> & -> & _).
  split; intros Hno; f_equal.
  - unfold penalties_of.
    destruct (re_search penalties_re s) as [m|] eqn:Hs; [|done].
    destruct Hno. by eapply penalties_search_Some.
  - unfold direct_of.
    destruct (re_search free_kicks_re s) as [m|] eqn:Hs; [|done].
    destruct Hno. by eapply free_kicks_search_Some.
Qed.

Lemma no_direct_heading_witness :
  ∃ rec,
    dict_get (extract NO_DIRECT) (py "Arsenal") = Some rec
    ∧ dict_get rec F_PENALTIES = Some []
    ∧ dict_get rec F_DIRECT = Some [].
Proof.
  destruct (no_direct_heading NO_DIRECT 0 (py "Arsenal") 0)
    as (rec & Hrec & Hpen & Hdir).
  { reflexivity. }
  { apply first_anchor_by_search. by vm_compute. }
  exists rec. split; [exact Hrec|]. split.
  - apply Hpen. apply not_occurs_after. by vm_compute.
  - apply Hdir. intros Hocc%occurs_in_infix. by vm_compute in Hocc.
Defined.

(** C6 as stated fails: no line of this section starts with
    [Direct free-kicks] (the text stands in the middle of the fourth
    line), yet [direct_free_kicks] is not empty. *)
Lemma midline_direct_counterexample :
  clubs !! 0 = Some (py "Arsenal")
  ∧ first_anchor_at (py "Arsenal") MIDLINE_DIRECT 0
  ∧ slice MIDLINE_DIRECT 0 (section_end MIDLINE_DIRECT 0) = MIDLINE_DIRECT
  ∧ ¬ line_starts_after PENALTIES DIRECT MIDLINE_DIRECT
  ∧ dict_get (extract MIDLINE_DIRECT) (py "Arsenal") =
    Some [(F_PENALTIES, []); (F_DIRECT, [py "Trossard"]);
          (F_CORNERS, [py "Saka"]); (F_NOTES, [])].
Proof.
  split; [reflexivity|]. split.
  { apply first_anchor_by_search. by vm_compute. }
  split; [by vm_compute|]. split.
  { apply not_occurs_after. by vm_compute. }
  by vm_compute.
Qed.

(** C10.  For a club whose heading is found: when the section does not
    end with a newline and no empty line (two newlines in a row) comes
    after a [Corners & indirect free-kicks] heading, the corners pattern
    has no match, and both [corners_indirect_free_kicks] and [notes] are
    empty. *)
Theorem unterminated_corners_block content i club p :
  clubs !! i = Some club →
  first_anchor_at club content p →
  ¬ ends_with_newline (slice content p (section_end content i)) →
  ¬ occurs_after CORNERS [NL; NL] (slice content p (section_end content i)) →
  ∃ rec,
    dict_get (extract content) club = Some rec
    ∧ dict_get rec F_CORNERS = Some []
    ∧ dict_get rec F_NOTES = Some [].
Proof.
  intros Hi Hp Hend Hblank. eexists. split; [by apply (extract_record _ i)|].
  set (s := slice content p (section_end content i)) in *.
  destruct (club_record_fields s) as (_ & _ & -> & ->).
  unfold corners_notes_of.
  destruct (re_search corners_re s) as [m|] eqn:Hs; [|done].
  apply corners_search_Some in Hs as [?|?]; done.
Qed.

Lemma unterminated_corners_block_witness :
  ∃ rec,
    dict_get (extract UNTERMINATED) (py "Arsenal") = Some rec
    ∧ dict_get rec F_CORNERS = Some []
    ∧ dict_get rec F_NOTES = Some [].
Proof.
  apply (unterminated_corners_block UNTERMINATED 0 (py "Arsenal") 0).
  - reflexivity.
  - apply first_anchor_by_search. by vm_compute.
  - apply not_ends_with_newline. by vm_compute.
  - apply not_occurs_after. by vm_compute.
Defined.

Lemma matches_block anchor post ws l ls t rest :
  spaces ws → Forall (λ l, NL ∉ l) (l :: ls) → matches post t rest →
  matches (block_re anchor post)
    (anchor ++ ws ++ [NL] ++ unlines (l :: ls) ++ t) rest.
Proof.
  intros Hws Hls Ht. unfold block_re.
  exists anchor, (ws ++ [NL] ++ unlines (l :: ls) ++ t).
  repeat split; [by apply matches_lits|].
  exists ws, ([NL] ++ unlines (l :: ls) ++ t).
  repeat split; [by apply star_space|].
  exists [NL], (unlines (l :: ls) ++ t). repeat split.
  exists (unlines (l :: ls)), t. repeat split; [|done].
  change (matches lines_lazy (unlines (l :: ls)) (t ++ rest)).
  apply matches_lines_lazy. eauto.
Qed.

Lemma never_terminator s :
  never_here (Alt (Lit NL · Lit NL) EndZ) s →
  s ≠ [] ∧ ¬ ∃ s', s = NL :: NL :: s'.
Proof.
  intros Hnever. split.
  - intros ->. apply (Hnever [] []); [done|]. apply matches_terminator. auto.
  - intros [s' ->]. apply (Hnever [NL; NL] s'); [done|].
    apply matches_terminator. auto.
Qed.

(** C3, as amended.  When the corners pattern matches, the captured block
    is one or more whole lines after the heading line (any of them may be
    empty or hold only whitespace); it ends at the first end of a line
    after which two more newline characters follow, or else at the end of
    the section.  Conversely every section of this shape has a match. *)
Theorem corners_block_extent section :
  (∀ m, re_search corners_re section = Some m →
    ∃ pre ws l ls tail,
      section = pre ++ CORNERS ++ ws ++ [NL] ++ unlines (l :: ls) ++ tail
      ∧ spaces ws
      ∧ Forall (λ l, NL ∉ l) (l :: ls)
      ∧ m_group1 m = Some (unlines (l :: ls))
      ∧ corners_notes_of section = takers_and_notes (unlines (l :: ls))
      ∧ (tail = [] ∨ ∃ tail', tail = NL :: NL :: tail')
      ∧ ∀ j, 0 < j < length (l :: ls) →
          ¬ ∃ tail', unlines (drop j (l :: ls)) ++ tail = NL :: NL :: tail')
  ∧ (∀ pre ws l ls tail,
      section = pre ++ CORNERS ++ ws ++ [NL] ++ unlines (l :: ls) ++ tail →
      spaces ws →
      Forall (λ l, NL ∉ l) (l :: ls) →
      (tail = [] ∨ ∃ tail', tail = NL :: NL :: tail') →
      is_Some (re_search corners_re section)).
Proof.
  split.
  - intros m Hs. pose proof Hs as Hs'. rewrite corners_re_block in Hs'.
    apply block_search in Hs'
      as (pre & ws & l & ls & t & rest & Hsec & Hws & Hls
          & Ht%matches_terminator & Hg & _ & Hmin); [|done].
    exists pre, ws, l, ls, (t ++ rest). repeat split; auto.
    + unfold corners_notes_of, takers_and_notes, group1. by rewrite Hs, Hg.
    + destruct Ht as [->|[-> ->]]; eauto.
    + intros j Hj. apply Hmin in Hj. by apply never_terminator in Hj as [_ ?].
  - intros pre ws l ls tail -> Hws Hls Htail.
    destruct (re_search corners_re _) as [m|] eqn:Hs; [eauto|].
    exfalso. rewrite re_search_None in Hs. apply (Hs (length pre)).
    assert (∃ t rest, tail = t ++ rest
              ∧ matches (Alt (Lit NL · Lit NL) EndZ) t rest)
      as (t & rest & -> & Ht).
    { destruct Htail as [->|[tail' ->]].
      - exists [], []. split; [done|]. apply matches_terminator. auto.
      - exists [NL; NL], tail'. split; [done|]. apply matches_terminator. auto. }
    exists (CORNERS ++ ws ++ [NL] ++ unlines (l :: ls) ++ t), rest.
    rewrite drop_app_length. repeat split.
    + by rewrite <- !(assoc_L (++)).
    + rewrite length_app. lia.
    + rewrite corners_re_block. by apply matches_block.
Qed.

Lemma corners_block_extent_witness :
  ∃ pre ws l ls tail,
    SPACE_LINE = pre ++ CORNERS ++ ws ++ [NL] ++ unlines (l :: ls) ++ tail
    ∧ spaces ws
    ∧ Forall (λ l, NL ∉ l) (l :: ls)
    ∧ Some (py "Saka\n \nRice\n") = Some (unlines (l :: ls))
    ∧ corners_notes_of SPACE_LINE = takers_and_notes (unlines (l :: ls))
    ∧ (tail = [] ∨ ∃ tail', tail = NL :: NL :: tail')
    ∧ ∀ j, 0 < j < length (l :: ls) →
        ¬ ∃ tail', unlines (drop j (l :: ls)) ++ tail = NL :: NL :: tail'.
Proof.
  apply (proj1 (corners_block_extent SPACE_LINE)
           (MkMatch 46 88 (Some (py "Saka\n \nRice\n")))).
  by vm_compute.
Defined.

(** C3 as stated fails: the line that holds one space does not end the
    block, and neither does an empty line; [Rice], which comes after it,
    is captured and becomes a taker.  By the specification's wording the
    block would be the single line [Saka]. *)
Lemma blank_line_counterexample :
  split_on NL (py "Saka\n \nRice\n") = [py "Saka"; py " "; py "Rice"; []]
  ∧ spec_block_lines [py "Saka"; py " "; py "Rice"; []] = [py "Saka"]
  ∧ group1 <$> re_search corners_re SPACE_LINE = Some (py "Saka\n \nRice\n")
  ∧ dict_get (extract SPACE_LINE) (py "Arsenal") =
    Some [(F_PENALTIES, [py "Saka"]); (F_DIRECT, [py "Rice"]);
          (F_CORNERS, [py "Saka"; py "Rice"]); (F_NOTES, [])]
  ∧ spec_block_lines [py "Saka"; []; py "Rice"; []] = [py "Saka"]
  ∧ group1 <$> re_search corners_re EMPTY_LINE = Some (py "Saka\n\nRice\n")
  ∧ dict_get (extract EMPTY_LINE) (py "Arsenal") =
    Some [(F_PENALTIES, [py "Saka"]); (F_DIRECT, [py "Rice"]);
          (F_CORNERS, [py "Saka"; py "Rice"]); (F_NOTES, [])].
Proof. repeat split; by vm_compute. Qed.

(** ** Takers and notes *)

Lemma kept_lines_cons l ls :
  kept_lines (l :: ls) =
  if truthy (strip l) then strip l :: kept_lines ls else kept_lines ls.
Proof.
  unfold kept_lines. rewrite fmap_cons, filter_cons.
  destruct (truthy (strip l)); case_decide; done.
Qed.

Lemma classify_in_notes ls takers notes :
  foldl classify_step (takers, notes, true) ls =
  (takers, notes ++ kept_lines ls, true).
Proof.
  revert notes. induction ls as [|l ls IH]; intros notes; simpl.
  - by rewrite app_nil_r.
  - rewrite kept_lines_cons. destruct (truthy (strip l)); simpl.
    + rewrite andb_false_r, IH, <- (assoc_L (++)). done.
    + apply IH.
Qed.

Lemma classify_short_run short takers :
  Forall (λ l, length (split_ws (strip l)) ≤ 2) short →
  foldl classify_step (takers, [], false) short =
  (takers ++ kept_lines short, [], false).
Proof.
  intros Hshort. revert takers.
  induction Hshort as [|l short Hl _ IH]; intros takers; simpl.
  - by rewrite app_nil_r.
  - rewrite kept_lines_cons. destruct (truthy (strip l)); simpl.
    + rewrite bool_decide_eq_true_2 by done. simpl.
      rewrite IH, <- (assoc_L (++)). done.
    + apply IH.
Qed.

(** C2.  The first line of more than two words switches the loop to notes
    for good: the takers are the (trimmed, non-empty) lines before it, the
    notes are that line and all the (trimmed, non-empty) lines after it,
    however few words they have.  So it is for the four sample lines, in
    the loop and in the record of a section whose corners block they
    make. *)
Theorem classification_latch :
  (∀ short long rest,
     Forall (λ l, length (split_ws (strip l)) ≤ 2) short →
     2 < length (split_ws (strip long)) →
     classify (short ++ long :: rest) =
     (kept_lines short, strip long :: kept_lines rest))
  ∧ classify LATCH_LINES =
    ([py "Saka"; py "Ødegaard"],
     [py "Set pieces depend on the opponent and situation"; py "Rice"])
  ∧ dict_get (extract LATCH_SECTION) (py "Arsenal") =
    Some [(F_PENALTIES, [py "Saka"]); (F_DIRECT, [py "Rice"]);
          (F_CORNERS, [py "Saka"; py "Ødegaard"]);
          (F_NOTES, [py "Set pieces depend on the opponent and situation";
                     py "Rice"])].
Proof.
  split; [|split; by vm_compute].
  intros short long rest Hshort Hlong. unfold classify.
  rewrite foldl_app, classify_short_run by done. simpl.
  assert (truthy (strip long) = true) as ->.
  { apply bool_decide_eq_true. intros Heq. rewrite Heq in Hlong.
    simpl in Hlong. lia. }
  simpl. rewrite bool_decide_eq_false_2 by lia. simpl.
  rewrite classify_in_notes. done.
Qed.

Lemma classification_latch_witness :
  classify ([py "Saka"; py " Ødegaard "] ++ py "depends on the opponent"
            :: [py "Rice"; py ""; py "Declan Rice"]) =
  (kept_lines [py "Saka"; py " Ødegaard "],
   strip (py "depends on the opponent")
   :: kept_lines [py "Rice"; py ""; py "Declan Rice"]).
Proof.
  apply (proj1 classification_latch).
  - apply (bool_decide_unpack _). by vm_compute.
  - vm_compute. lia.
Defined.

(** ** The end-to-end scenario *)

(** C1 as stated fails: Chelsea is not the club after Arsenal in the
    roster, so its heading does not end the Arsenal section, which runs to
    the end of the text; the corners block takes in the Chelsea lines. *)
Lemma chelsea_scenario_counterexample :
  first_anchor_at (py "Chelsea") (ARSENAL_SECTION ++ CHELSEA_SECTION)
    (length ARSENAL_SECTION)
  ∧ section_end (ARSENAL_SECTION ++ CHELSEA_SECTION) 0
    = length (ARSENAL_SECTION ++ CHELSEA_SECTION)
  ∧ section_end (ARSENAL_SECTION ++ CHELSEA_SECTION) 0
    ≠ length ARSENAL_SECTION
  ∧ dict_get (extract (ARSENAL_SECTION ++ CHELSEA_SECTION)) (py "Arsenal") =
    Some [(F_PENALTIES, [py "Saka"]); (F_DIRECT, [py "Trossard"]);
          (F_CORNERS, [py "Saka"; py "Ødegaard"; py "Chelsea";
                       py "Penalties"; py "Palmer";
                       py "Direct free-kicks"; py "James"]);
          (F_NOTES, [py "Corners & indirect free-kicks"; py "Palmer";
                     py "James"])]
  ∧ dict_get (extract (ARSENAL_SECTION ++ CHELSEA_SECTION)) (py "Arsenal")
    ≠ Some ARSENAL_RECORD.
Proof.
  split; [apply first_anchor_by_search; by vm_compute|].
  repeat split; by vm_compute.
Qed.

(** C1, as amended.  With the section of Aston Villa, the next club of the
    roster, after the Arsenal section, the Arsenal record is the stated
    one and the Arsenal section ends where the Aston Villa heading
    starts.  With the Chelsea section after it, the Arsenal section runs
    to the end of the text; [penalties] and [direct_free_kicks] are the
    stated ones all the same. *)
Theorem arsenal_scenario :
  dict_get (extract (ARSENAL_SECTION ++ ASTON_VILLA_SECTION)) (py "Arsenal")
    = Some ARSENAL_RECORD
  ∧ first_anchor_at (py "Aston Villa") (ARSENAL_SECTION ++ ASTON_VILLA_SECTION)
      (length ARSENAL_SECTION)
  ∧ section_end (ARSENAL_SECTION ++ ASTON_VILLA_SECTION) 0
    = length ARSENAL_SECTION
  ∧ slice (ARSENAL_SECTION ++ ASTON_VILLA_SECTION) 0
      (section_end (ARSENAL_SECTION ++ ASTON_VILLA_SECTION) 0)
    = ARSENAL_SECTION
  ∧ slice (ARSENAL_SECTION ++ CHELSEA_SECTION) 0
      (section_end (ARSENAL_SECTION ++ CHELSEA_SECTION) 0)
    = ARSENAL_SECTION ++ CHELSEA_SECTION
  ∧ (∃ rec,
      dict_get (extract (ARSENAL_SECTION ++ CHELSEA_SECTION)) (py "Arsenal")
        = Some rec
      ∧ dict_get rec F_PENALTIES = Some [py "Saka"]
      ∧ dict_get rec F_DIRECT = Some [py "Trossard"]).
Proof.
  split; [by vm_compute|].
  split; [apply first_anchor_by_search; by vm_compute|].
  split; [by vm_compute|]. split; [by vm_compute|]. split; [by vm_compute|].
  eexists. split; [by vm_compute|]. split; by vm_compute.
Qed.

(** ** The shape of the JSON text *)

Lemma indented_nil : indented [].
Proof. exists [], []. repeat split; [apply not_elem_of_nil | constructor]. Qed.

Lemma ext_plain t : NL ∉ t → ext t.
Proof.
  intros Ht s (first & segs & -> & Hfirst & Hsegs).
  destruct segs as [|seg segs _] using rev_ind.
  - exists (first ++ t), []. simpl. rewrite !app_nil_r.
    repeat split; [|constructor]. by apply not_elem_of_app.
  - apply Forall_app in Hsegs as [Hsegs Hseg].
    apply Forall_singleton in Hseg
      as (k & c & body & Hk & -> & Hc1 & Hc2 & Hbody).
    exists first, (segs ++ [NL :: replicate (4 * k) SP ++ c :: body ++ t]).
    repeat split; [|done|].
    + rewrite !concat_app. simpl. rewrite !app_nil_r.
      rewrite <- !(assoc_L (++)). simpl. by rewrite <- !(assoc_L (++)).
    + apply Forall_app. split; [done|]. apply Forall_singleton.
      exists k, c, (body ++ t). repeat split; auto.
      by apply not_elem_of_app.
Qed.

Lemma ext_app t1 t2 : ext t1 → ext t2 → ext (t1 ++ t2).
Proof. intros H1 H2 s Hs. rewrite (assoc_L (++)). auto. Qed.

Lemma ext_break k c t :
  k ≤ 3 → c ≠ SP → c ≠ NL → ext t →
  ext (Json.newline_indent 4 k ++ c :: t).
Proof.
  intros Hk Hc1 Hc2 Ht.
  change (c :: t) with ([c] ++ t). rewrite (assoc_L (++)).
  apply ext_app; [|done].
  intros s (first & segs & -> & Hfirst & Hsegs).
  exists first, (segs ++ [NL :: replicate (4 * k) SP ++ [c]]).
  repeat split; [|done|].
  - rewrite concat_app. simpl. rewrite app_nil_r.
    by rewrite <- !(assoc_L (++)).
  - apply Forall_app. split; [done|]. apply Forall_singleton.
    exists k, c, []. repeat split; auto. apply not_elem_of_nil.
Qed.

Lemma hex_digit_no_nl n : Json.hex_digit n ≠ NL.
Proof.
  unfold Json.hex_digit, NL. destruct (n <? 10)%N; lia.
Qed.

Lemma u_escape_no_nl n : NL ∉ Json.u_escape n.
Proof.
  unfold Json.u_escape. repeat (apply not_elem_of_cons; split);
    try apply not_elem_of_nil; try (intros Heq; symmetry in Heq; revert Heq;
    apply hex_digit_no_nl); done.
Qed.

Lemma escape_char_no_nl b c : NL ∉ Json.escape_char b c.
Proof.
  unfold Json.escape_char.
  repeat match goal with
  | |- context [if ?x then _ else _] => destruct x eqn:?
  end;
  try apply u_escape_no_nl;
  try (apply not_elem_of_app; split; apply u_escape_no_nl);
  try (repeat (apply not_elem_of_cons; split); try apply not_elem_of_nil; done).
  all: apply not_elem_of_cons; split; [|apply not_elem_of_nil].
  all: intros <-; done.
Qed.

Lemma encode_str_quoted b s : quoted (Json.encode_str b s).
Proof.
  eexists. split; [reflexivity|]. apply ext_plain.
  apply not_elem_of_app. split.
  - intros (c & Hc & _)%list_elem_of_bind. by apply escape_char_no_nl in Hc.
  - apply not_elem_of_cons. split; [done | apply not_elem_of_nil].
Qed.

Lemma join_quoted k items :
  k ≤ 3 → items ≠ [] → Forall quoted items →
  quoted (Json.join ([44%N] ++ Json.newline_indent 4 k) items).
Proof.
  intros Hk Hne Hitems.
  induction Hitems as [|x items Hx Hitems IH]; [done|].
  destruct items as [|y items]; [done|].
  destruct Hx as (x' & -> & Hx').
  destruct IH as (j' & Hj & Hj'); [done|].
  change (Json.join ?sep (?a :: y :: items))
    with (a ++ sep ++ Json.join sep (y :: items)).
  rewrite Hj. exists (x' ++ [44%N] ++ Json.newline_indent 4 k ++ QUOTE :: j').
  split; [by rewrite <- !(assoc_L (++))|].
  apply ext_app; [done|]. apply ext_app.
  - apply ext_plain. apply not_elem_of_cons. split; [done|apply not_elem_of_nil].
  - by apply ext_break.
Qed.

Lemma container_ext level opening closing items :
  level < 3 → opening ≠ NL → closing ≠ NL → closing ≠ SP →
  Forall quoted items →
  ext (Json.container 4 level opening closing items).
Proof.
  intros Hl Ho Hc1 Hc2 Hitems. unfold Json.container.
  destruct items as [|x items].
  - apply ext_plain. repeat (apply not_elem_of_cons; split); auto.
    apply not_elem_of_nil.
  - destruct (join_quoted (S level) (x :: items)) as (j' & -> & Hj');
      [lia|done|done|].
    apply ext_app.
    + apply ext_plain. apply not_elem_of_cons. split; [auto|apply not_elem_of_nil].
    + change ((QUOTE :: j') ++ ?t) with (QUOTE :: (j' ++ t)).
      apply ext_break; [lia|done|done|].
      apply ext_app; [done|]. apply ext_break; [lia|done|done|].
      apply ext_plain, not_elem_of_nil.
Qed.

Lemma member_quoted b key value : ext value → quoted (Json.member b key value).
Proof.
  intros Hv. destruct (encode_str_quoted b key) as (k' & Hk & Hk').
  unfold Json.member. rewrite Hk. eexists. split; [reflexivity|].
  apply ext_app; [done|]. apply ext_app; [|done].
  apply ext_plain. repeat (apply not_elem_of_cons; split); try done.
  apply not_elem_of_nil.
Qed.

Lemma encode_list_ext b level l :
  level < 3 → ext (Json.encode_list 4 b level l).
Proof.
  intros Hl. apply container_ext; try done.
  apply Forall_fmap, Forall_forall. intros s _. apply encode_str_quoted.
Qed.

Lemma encode_record_ext b level rec :
  S level < 3 → ext (Json.encode_record 4 b level rec).
Proof.
  intros Hl. apply container_ext; try done; [lia|].
  apply Forall_fmap, Forall_forall. intros [k l] _.
  apply member_quoted, encode_list_ext. done.
Qed.

Lemma dumps_indented b (data : report) : indented (Json.dumps data 4 b).
Proof.
  change (Json.dumps data 4 b) with ([] ++ Json.dumps data 4 b).
  apply container_ext; try done; [lia| |apply indented_nil].
  apply Forall_fmap, Forall_forall. intros [k rec] _.
  apply member_quoted, encode_record_ext. lia.
Qed.

Lemma split_on_cons sep c s :
  split_on sep (c :: s) =
  if bool_decide (c = sep) then [] :: split_on sep s
  else match split_on sep s with
       | l :: ls => (c :: l) :: ls
       | [] => [[c]]
       end.
Proof. reflexivity. Qed.

Lemma split_on_plain s : NL ∉ s → split_on NL s = [s].
Proof.
  induction s as [|c s IH]; [done|].
  intros [Hc Hs]%not_elem_of_cons. rewrite split_on_cons.
  rewrite bool_decide_eq_false_2 by congruence. by rewrite IH.
Qed.

Lemma split_on_app_plain a b :
  NL ∉ a → split_on NL (a ++ NL :: b) = a :: split_on NL b.
Proof.
  induction a as [|c a IH].
  - intros _. change ([] ++ NL :: b) with (NL :: b).
    rewrite split_on_cons. by rewrite bool_decide_eq_true_2.
  - intros [Hc Ha]%not_elem_of_cons.
    change ((c :: a) ++ NL :: b) with (c :: (a ++ NL :: b)).
    rewrite split_on_cons.
    rewrite bool_decide_eq_false_2 by congruence. by rewrite IH.
Qed.

Lemma indented_lines s :
  indented s → Forall line_ok (tail (split_on NL s)).
Proof.
  intros (first & segs & -> & Hfirst & Hsegs).
  enough (split_on NL (first ++ concat segs) = first :: (drop 1 <$> segs)) as ->.
  { simpl. apply Forall_fmap. eapply Forall_impl; [exact Hsegs|].
    intros seg (k & c & body & Hk & -> & Hc & _ & _). simpl.
    exists k, c, body. done. }
  revert first Hfirst.
  induction Hsegs as [|seg segs (k & c & body & Hk & -> & Hc1 & Hc2 & Hbody) _ IH];
    intros first Hfirst.
  - simpl. rewrite app_nil_r. by apply split_on_plain.
  - simpl. rewrite split_on_app_plain by done. f_equal.
    rewrite drop_0. apply IH.
    apply not_elem_of_app. split.
    + intros ?%elem_of_replicate_inv. done.
    + apply not_elem_of_cons. split; [congruence|done].
Qed.

(** ** The report as a whole *)

Lemma escape_plain c :
  (32 ≤ c)%N → c ≠ QUOTE → c ≠ BACKSLASH → Json.escape_char false c = [c].
Proof.
  unfold QUOTE, BACKSLASH, Json.escape_char. intros H32 Hq Hb.
  repeat match goal with
  | |- context [(?x =? ?y)%N] =>
      destruct (N.eqb_spec x y); [lia|]
  | |- context [(?x <? ?y)%N] =>
      destruct (N.ltb_spec x y); [lia|]
  end; try congruence.
  done.
Qed.

Lemma escape_plain_text s :
  plain_text s → s ≫= Json.escape_char false = s.
Proof.
  induction 1 as [|c s (H32 & Hq & Hb) _ IH]; [done|].
  change ((c :: s) ≫= Json.escape_char false)
    with (Json.escape_char false c ++ (s ≫= Json.escape_char false)).
  by rewrite escape_plain, IH.
Qed.

Lemma encode_str_plain s :
  plain_text s → Json.encode_str false s = [QUOTE] ++ s ++ [QUOTE].
Proof.
  intros Hs. unfold Json.encode_str. by rewrite escape_plain_text.
Qed.

(** *** What is read can be written *)

Lemma encode_char_scalar c : scalar c → is_Some (Utf8.encode_char c).
Proof.
  unfold scalar, Utf8.encode_char, Utf8.between. intros [Hs Hmax].
  repeat match goal with
  | |- context [(?x <? ?y)%N] => destruct (N.ltb_spec x y)
  | |- context [(?x <=? ?y)%N] => destruct (N.leb_spec x y)
  end; simpl; eauto; lia.
Qed.

Lemma encode_scalar s : Forall scalar s → is_Some (Utf8.encode s).
Proof.
  induction 1 as [|c s Hc _ [bs' IH]]; simpl; [eauto|].
  destruct (encode_char_scalar c Hc) as [bs ->]. rewrite IH. eauto.
Qed.

Lemma decode_aux_scalar fuel bs s :
  Forall (λ b, (b < 256)%N) bs →
  Utf8.decode_aux fuel bs = Some s → Forall scalar s.
Proof.
  revert bs s. induction fuel as [|fuel IH]; intros bs s Hbs; simpl.
  - destruct bs; [|done]. intros [= <-]. constructor.
  - destruct bs as [|b0 bs]; [intros [= <-]; constructor|].
    apply Forall_cons in Hbs as [H0 Hbs].
    unfold Utf8.between, Utf8.cont.
    destruct (N.ltb_spec b0 128).
    { destruct (Utf8.decode_aux fuel bs) as [s'|] eqn:Hd; [|done].
      intros [= <-]. constructor; [unfold scalar; lia | eauto]. }
    destruct (N.leb_spec 194 b0), (N.leb_spec b0 223); simpl.
    { destruct bs as [|b1 bs]; [done|].
      apply Forall_cons in Hbs as [H1' Hbs].
      destruct (N.leb_spec 128 b1), (N.leb_spec b1 191); simpl; try done.
      destruct (Utf8.decode_aux fuel bs) as [s'|] eqn:Hd; [|done].
      intros [= <-]. constructor; [unfold scalar; lia | eauto]. }
    all: destruct (N.leb_spec 224 b0), (N.leb_spec b0 239); simpl.
    all: try (destruct bs as [|b1 [|b2 bs]]; try done;
      apply Forall_cons in Hbs as [H1' Hbs];
      apply Forall_cons in Hbs as [H2' Hbs];
      destruct (N.eqb_spec b0 224), (N.eqb_spec b0 237);
      match goal with
      | |- context [(?x <=? b1)%N] => destruct (N.leb_spec x b1)
      end;
      match goal with
      | |- context [(b1 <=? ?x)%N] => destruct (N.leb_spec b1 x)
      end;
      destruct (N.leb_spec 128 b2), (N.leb_spec b2 191); simpl; try done;
      destruct (Utf8.decode_aux fuel bs) as [s'|] eqn:Hd; try done;
      intros [= <-]; (constructor; [unfold scalar; lia | eauto])).
    all: destruct (N.leb_spec 240 b0), (N.leb_spec b0 244); simpl; try done.
    all: try (destruct bs as [|b1 [|b2 [|b3 bs]]]; try done;
      apply Forall_cons in Hbs as [H1' Hbs];
      apply Forall_cons in Hbs as [H2' Hbs];
      apply Forall_cons in Hbs as [H3' Hbs];
      destruct (N.eqb_spec b0 240), (N.eqb_spec b0 244);
      match goal with
      | |- context [(?x <=? b1)%N] => destruct (N.leb_spec x b1)
      end;
      match goal with
      | |- context [(b1 <=? ?x)%N] => destruct (N.leb_spec b1 x)
      end;
      destruct (N.leb_spec 128 b2), (N.leb_spec b2 191);
      destruct (N.leb_spec 128 b3), (N.leb_spec b3 191); simpl; try done;
      destruct (Utf8.decode_aux fuel bs) as [s'|] eqn:Hd; try done;
      intros [= <-]; (constructor; [unfold scalar; lia | eauto])).
Qed.

Lemma decode_scalar bs s : Utf8.decode bs = Some s → Forall scalar s.
Proof.
  unfold Utf8.decode. apply decode_aux_scalar.
  apply Forall_fmap, Forall_forall. intros b _. simpl.
  pose proof (Byte.to_N_bounded b). lia.
Qed.

Lemma scalar_NL : scalar NL.
Proof. unfold scalar, NL. lia. Qed.

Lemma universal_newlines_scalar s :
  Forall scalar s → Forall scalar (universal_newlines s).
Proof.
  remember (length s) as n eqn:Hn. revert s Hn.
  induction n as [n IH] using lt_wf_ind. intros s -> Hs.
  destruct s as [|c s]; [constructor|].
  apply Forall_cons in Hs as [Hc Hs]. simpl.
  case_bool_decide.
  - constructor; [apply scalar_NL|].
    destruct s as [|c' s]; [constructor|].
    apply Forall_cons in Hs as [Hc' Hs'].
    case_bool_decide.
    + eapply IH; [|reflexivity|done]. simpl. lia.
    + eapply IH; [|reflexivity|by constructor]. simpl. lia.
  - constructor; [done|]. eapply IH; [|reflexivity|done]. simpl. lia.
Qed.

Lemma read_text_scalar w path content :
  read_text w path = Ok content → Forall scalar content.
Proof.
  unfold read_text. case_decide; [done|].
  destruct (files w !! path) as [bs|]; [|done].
  destruct (Utf8.decode bs) as [s|] eqn:Hd; [|done].
  intros [= <-]. by eapply universal_newlines_scalar, decode_scalar.
Qed.

(** *** The characters of the result come from the text *)

Section Chars.
Context (P : char → Prop).

Lemma lstrip_chars s : Forall P s → Forall P (lstrip s).
Proof.
  induction 1 as [|c s Hc Hs IH]; simpl; [constructor|].
  destruct (isspace c); [done | by constructor].
Qed.

Lemma strip_chars s : Forall P s → Forall P (strip s).
Proof.
  intros Hs. unfold strip, rstrip.
  apply Forall_reverse, lstrip_chars, Forall_reverse, lstrip_chars, Hs.
Qed.

Lemma split_on_chars sep s : Forall P s → Forall (Forall P) (split_on sep s).
Proof.
  induction 1 as [|c s Hc Hs IH]; simpl; [by repeat constructor|].
  case_bool_decide; [by constructor|].
  destruct (split_on sep s) as [|l ls]; [by repeat constructor|].
  apply Forall_cons in IH as [Hl Hls]. repeat constructor; done.
Qed.

Lemma stripped_lines_chars text :
  Forall P text → Forall (Forall P) (stripped_lines text).
Proof.
  intros Ht. unfold stripped_lines. apply Forall_fmap.
  apply Forall_forall. intros l [_ Hl]%list_elem_of_filter.
  apply strip_chars. revert l Hl. apply Forall_forall. by apply split_on_chars.
Qed.

Lemma classify_step_chars st line :
  Forall (Forall P) st.1.1 → Forall (Forall P) st.1.2 → Forall P line →
  Forall (Forall P) (classify_step st line).1.1
  ∧ Forall (Forall P) (classify_step st line).1.2.
Proof.
  destruct st as [[takers notes] in_notes]. simpl. intros Ht Hn Hl.
  destruct (truthy (strip line)); simpl; [|done].
  destruct (_ && _); simpl; split; try done;
    apply Forall_app; split; try done;
    apply Forall_singleton; by apply strip_chars.
Qed.

Lemma classify_chars ls :
  Forall (Forall P) ls →
  Forall (Forall P) (classify ls).1 ∧ Forall (Forall P) (classify ls).2.
Proof.
  unfold classify.
  assert (∀ st, Forall (Forall P) st.1.1 → Forall (Forall P) st.1.2 →
            Forall (Forall P) ls →
            Forall (Forall P) (foldl classify_step st ls).1.1
            ∧ Forall (Forall P) (foldl classify_step st ls).1.2) as Hgen.
  { induction ls as [|l ls IH]; intros st H1 H2 Hls; simpl; [done|].
    apply Forall_cons in Hls as [Hl Hls].
    destruct (classify_step_chars st l H1 H2 Hl). by apply IH. }
  intros Hls. destruct (Hgen ([], [], false)); try done; by constructor.
Qed.

Lemma group1_chars anchor post s m :
  no_group post = true →
  re_search (block_re anchor post) s = Some m →
  Forall P s → Forall P (group1 m).
Proof.
  intros Hpost Hs.
  apply block_search in Hs
    as (pre & ws & l & ls & t & rest & -> & _ & _ & _ & Hg & _); [|done].
  unfold group1. rewrite Hg. intros Hall.
  apply Forall_app in Hall as [_ Hall]. apply Forall_app in Hall as [_ Hall].
  apply Forall_app in Hall as [_ Hall]. apply Forall_app in Hall as [_ Hall].
  apply Forall_app in Hall as [Hall _]. exact Hall.
Qed.

Lemma club_record_chars s :
  Forall P s →
  Forall (λ kv : str * list str, Forall (Forall P) kv.2) (club_record s).
Proof.
  intros Hs. unfold club_record, penalties_of, direct_of, corners_notes_of.
  repeat constructor; simpl.
  - destruct (re_search penalties_re s) as [m|] eqn:Hm; [|constructor].
    apply stripped_lines_chars, strip_chars.
    by eapply (group1_chars PENALTIES (lits DIRECT)); [apply no_group_lits|..].
  - destruct (re_search free_kicks_re s) as [m|] eqn:Hm; [|constructor].
    apply stripped_lines_chars, strip_chars.
    by eapply (group1_chars DIRECT (lits CORNERS)); [apply no_group_lits|..].
  - destruct (re_search corners_re s) as [m|] eqn:Hm; [|constructor].
    apply classify_chars, split_on_chars, strip_chars.
    by eapply (group1_chars CORNERS (Alt (Lit NL · Lit NL) EndZ)).
  - destruct (re_search corners_re s) as [m|] eqn:Hm; [|constructor].
    apply classify_chars, split_on_chars, strip_chars.
    by eapply (group1_chars CORNERS (Alt (Lit NL · Lit NL) EndZ)).
Qed.
End Chars.

Lemma dict_set_entries {V} (Q : str * V → Prop) (d : dict V) k v :
  Forall Q d → Q (k, v) → Forall Q (dict_set d k v).
Proof.
  intros Hd Hv. induction Hd as [|[k0 v0] d H0 Hd IH]; simpl.
  - by constructor.
  - case_decide; [subst k0|]; constructor; auto.
Qed.

Lemma extract_entries content :
  Forall (λ kv : str * dict (list str),
            kv.1 ∈ clubs ∧ ∃ a b, kv.2 = club_record (slice content a b))
         (extract content).
Proof.
  unfold extract.
  assert (∀ ics (data : report),
            Forall (λ ic : nat * str, ic.2 ∈ clubs) ics →
            Forall (λ kv : str * dict (list str),
               kv.1 ∈ clubs ∧ ∃ a b, kv.2 = club_record (slice content a b))
              data →
            Forall (λ kv : str * dict (list str),
               kv.1 ∈ clubs ∧ ∃ a b, kv.2 = club_record (slice content a b))
              (foldl (process_club content) data ics)) as Hgen.
  { induction ics as [|[i club] ics IH]; intros data Hics Hdata; simpl; [done|].
    apply Forall_cons in Hics as [Hclub Hics]. apply IH; [done|].
    rewrite process_club_record. destruct (re_search _ content); [|done].
    apply dict_set_entries; [done|]. simpl. eauto. }
  apply Hgen; [|constructor].
  apply Forall_forall. intros [i club] Hin%elem_of_enumerate.
  simpl. by eapply list_elem_of_lookup_2.
Qed.

(** *** The characters of the JSON text *)

Section JsonChars.
Context (P : char → Prop).
Hypothesis P_ascii : ∀ c, (c < 128)%N → P c.

Lemma hex_digit_chars n : (n < 16)%N → P (Json.hex_digit n).
Proof.
  intros Hn. apply P_ascii. unfold Json.hex_digit.
  destruct (N.ltb_spec n 10); lia.
Qed.

Lemma u_escape_chars n : Forall P (Json.u_escape n).
Proof.
  unfold Json.u_escape. repeat constructor;
    try (apply P_ascii; lia);
    apply hex_digit_chars, N.mod_lt; lia.
Qed.

Lemma escape_char_chars b c : P c → Forall P (Json.escape_char b c).
Proof.
  intros Hc. unfold Json.escape_char.
  repeat match goal with
  | |- context [if ?x then _ else _] => destruct x
  end;
  try apply u_escape_chars;
  try (apply Forall_app; split; apply u_escape_chars);
  repeat constructor; try (apply P_ascii; lia); done.
Qed.

Lemma encode_str_chars b s : Forall P s → Forall P (Json.encode_str b s).
Proof.
  intros Hs. unfold Json.encode_str.
  apply Forall_app. split; [repeat constructor; apply P_ascii; lia|].
  apply Forall_app. split; [|repeat constructor; apply P_ascii; lia].
  apply Forall_bind. eapply Forall_impl; [exact Hs|].
  intros c Hc. by apply escape_char_chars.
Qed.

Lemma join_chars sep items :
  Forall P sep → Forall (Forall P) items → Forall P (Json.join sep items).
Proof.
  intros Hsep. induction 1 as [|x items Hx Hitems IH]; simpl; [constructor|].
  destruct items; [done|]. rewrite !Forall_app. done.
Qed.

Lemma newline_indent_chars indent level :
  Forall P (Json.newline_indent indent level).
Proof.
  unfold Json.newline_indent. constructor; [apply P_ascii; unfold NL; lia|].
  apply Forall_replicate, P_ascii. lia.
Qed.

Lemma container_chars indent level opening closing items :
  (opening < 128)%N → (closing < 128)%N → Forall (Forall P) items →
  Forall P (Json.container indent level opening closing items).
Proof.
  intros Ho Hc Hitems. unfold Json.container.
  destruct items as [|x items]; [repeat constructor; by apply P_ascii|].
  rewrite !Forall_app. repeat split.
  - repeat constructor. by apply P_ascii.
  - apply newline_indent_chars.
  - apply join_chars; [|done]. apply Forall_app. split.
    + repeat constructor. apply P_ascii. lia.
    + apply newline_indent_chars.
  - apply newline_indent_chars.
  - repeat constructor. by apply P_ascii.
Qed.

Lemma member_chars b key value :
  Forall P key → Forall P value → Forall P (Json.member b key value).
Proof.
  intros Hk Hv. unfold Json.member. rewrite !Forall_app. repeat split.
  - by apply encode_str_chars.
  - repeat constructor; apply P_ascii; lia.
  - done.
Qed.

Lemma dumps_chars indent b (data : report) :
  Forall (λ kv : str * dict (list str),
            Forall P kv.1
            ∧ Forall (λ fl : str * list str,
                        Forall P fl.1 ∧ Forall (Forall P) fl.2) kv.2) data →
  Forall P (Json.dumps data indent b).
Proof.
  intros Hdata. unfold Json.dumps. apply container_chars; [lia|lia|].
  apply Forall_fmap. eapply Forall_impl; [exact Hdata|].
  intros [club rec] [Hclub Hrec]. simpl in *. apply member_chars; [done|].
  unfold Json.encode_record. apply container_chars; [lia|lia|].
  apply Forall_fmap. eapply Forall_impl; [exact Hrec|].
  intros [field l] [Hfield Hl]. simpl in *. apply member_chars; [done|].
  unfold Json.encode_list. apply container_chars; [lia|lia|].
  apply Forall_fmap. eapply Forall_impl; [exact Hl|].
  intros s Hs. by apply encode_str_chars.
Qed.
End JsonChars.

Lemma scalar_ascii c : (c < 128)%N → scalar c.
Proof. unfold scalar. lia. Qed.

Lemma clubs_ascii : Forall (Forall (λ c, (c < 128)%N)) clubs.
Proof. apply (bool_decide_unpack _). by vm_compute. Qed.

Lemma fields_ascii : Forall (Forall (λ c, (c < 128)%N)) FIELDS.
Proof. apply (bool_decide_unpack _). by vm_compute. Qed.

Lemma club_record_keys s : dict_keys (club_record s) = FIELDS.
Proof. reflexivity. Qed.

Lemma extract_scalar content :
  Forall scalar content →
  Forall scalar (Json.dumps (extract content) 4 false).
Proof.
  intros Hc. apply dumps_chars; [apply scalar_ascii|].
  eapply Forall_impl; [apply extract_entries|].
  intros [club rec] [Hclub (a & b & ->)]. simpl in *. split.
  - pose proof clubs_ascii as Hascii. rewrite Forall_forall in Hascii.
    eapply Forall_impl; [exact (Hascii _ Hclub)|]. apply scalar_ascii.
  - assert (Forall scalar (slice content a b)) as Hs.
    { unfold slice. by apply Forall_take, Forall_drop. }
    pose proof (club_record_chars scalar _ Hs) as Hvals.
    rewrite Forall_forall in Hvals.
    apply Forall_forall. intros fl Hfl. split; [|by apply Hvals].
    pose proof fields_ascii as Hascii. rewrite Forall_forall in Hascii.
    eapply Forall_impl; [apply (Hascii fl.1)|apply scalar_ascii].
    rewrite <- (club_record_keys (slice content a b)).
    unfold dict_keys. by apply list_elem_of_fmap_2.
Qed.

(** *** The encoder writes the layout of the specification *)

Lemma json_char_ascii :
  Forall (λ c, json_char c = Json.escape_char false c) (N.of_nat <$> seq 0 128).
Proof. apply (bool_decide_unpack _). by vm_compute. Qed.

Lemma json_char_escape c : json_char c = Json.escape_char false c.
Proof.
  destruct (decide (c < 128)%N) as [Hlt|Hge].
  - pose proof json_char_ascii as Hall. rewrite Forall_forall in Hall.
    apply Hall. apply list_elem_of_fmap. exists (N.to_nat c).
    split; [lia|]. apply elem_of_seq. lia.
  - unfold json_char, Json.escape_char, QUOTE, BACKSLASH, NL, CR.
    repeat (rewrite bool_decide_eq_false_2 by lia).
    repeat match goal with
    | |- context [(?x =? ?y)%N] =>
      rewrite (proj2 (N.eqb_neq x y)) by lia
    end.
    rewrite (proj2 (N.ltb_ge _ _)) by lia. done.
Qed.

Lemma json_string_encode s : json_string s = Json.encode_str false s.
Proof.
  unfold json_string, Json.encode_str. do 2 f_equal.
  induction s as [|c s IH]; [done|].
  change ((c :: s) ≫= json_char) with (json_char c ++ (s ≫= json_char)).
  change ((c :: s) ≫= Json.escape_char false)
    with (Json.escape_char false c ++ (s ≫= Json.escape_char false)).
  by rewrite IH, json_char_escape.
Qed.

Lemma lines_text_cons l ls :
  ls ≠ [] → lines_text (l :: ls) = l ++ [NL] ++ lines_text ls.
Proof. destruct ls as [|l' ls]; [done|]. intros _. done. Qed.

Lemma lines_text_app ls1 ls2 :
  ls1 ≠ [] → ls2 ≠ [] →
  lines_text (ls1 ++ ls2) = lines_text ls1 ++ [NL] ++ lines_text ls2.
Proof.
  intros H1 H2. induction ls1 as [|l ls1 IH]; [done|].
  destruct ls1 as [|l1 ls1].
  - simpl app. rewrite lines_text_cons by done.
    change (lines_text [l]) with (l ++ []). by rewrite app_nil_r.
  - rewrite <- app_comm_cons. rewrite lines_text_cons by done.
    rewrite IH by done. rewrite (lines_text_cons l (l1 :: ls1)) by done.
    by rewrite <- !(assoc_L (++)).
Qed.

Lemma add_comma_nonempty ls : ls ≠ [] → add_comma ls ≠ [].
Proof. destruct ls as [|l [|l' ls]]; done. Qed.

Lemma lines_text_add_comma ls :
  ls ≠ [] → lines_text (add_comma ls) = lines_text ls ++ [COMMA].
Proof.
  induction ls as [|l ls IH]; [done|]. intros _.
  destruct ls as [|l' ls].
  - simpl. by rewrite !app_nil_r.
  - change (add_comma (l :: l' :: ls)) with (l :: add_comma (l' :: ls)).
    rewrite lines_text_cons by (by apply add_comma_nonempty).
    rewrite IH by done. rewrite (lines_text_cons l) by done.
    by rewrite <- !(assoc_L (++)).
Qed.

Lemma comma_separated_nonempty items :
  items ≠ [] → Forall (λ ls, ls ≠ []) items → comma_separated items ≠ [].
Proof.
  destruct items as [|it [|it' items]]; [done| |].
  - intros _ [H _]%Forall_cons. done.
  - intros _ [H _]%Forall_cons.
    change (comma_separated (it :: it' :: items))
      with (add_comma it ++ comma_separated (it' :: items)).
    intros [Hnil _]%app_eq_nil. by apply (add_comma_nonempty it).
Qed.

(** The items, each on its lines, with [",\n"] between two of them. *)
Lemma lines_text_comma_separated items :
  Forall (λ ls, ls ≠ []) items →
  lines_text (comma_separated items) =
  Json.join [COMMA; NL] (lines_text <$> items).
Proof.
  induction items as [|it items IH]; [done|].
  intros [Hit Hitems]%Forall_cons.
  destruct items as [|it' items]; [done|].
  change (comma_separated (it :: it' :: items))
    with (add_comma it ++ comma_separated (it' :: items)).
  rewrite lines_text_app;
    [|by apply add_comma_nonempty|by apply comma_separated_nonempty].
  rewrite lines_text_add_comma by done. rewrite IH by done.
  change (lines_text <$> it :: it' :: items)
    with (lines_text it :: (lines_text <$> it' :: items)).
  change (Json.join ?sep (?x :: ?y :: ?r)) with (x ++ sep ++ Json.join sep (y :: r)).
  by rewrite <- !(assoc_L (++)).
Qed.

Lemma join_indent level sep (items : list str) :
  items ≠ [] →
  pad level ++ Json.join (sep ++ Json.newline_indent 4 level) items =
  Json.join (sep ++ [NL]) ((λ it, pad level ++ it) <$> items).
Proof.
  induction items as [|it items IH]; [done|]. intros _.
  destruct items as [|it' items]; [done|].
  change (Json.join ?s (it :: it' :: items))
    with (it ++ s ++ Json.join s (it' :: items)).
  change ((λ it, pad level ++ it) <$> it :: it' :: items)
    with ((pad level ++ it) :: ((λ it, pad level ++ it) <$> it' :: items)).
  change (Json.join ?s (?x :: (?f <$> it' :: items)))
    with (x ++ s ++ Json.join s (f <$> it' :: items)).
  rewrite <- IH by done. unfold Json.newline_indent. fold (pad level).
  change (NL :: ?x) with ([NL] ++ x).
  by rewrite <- !(assoc_L (++)).
Qed.

(** A container whose items stand on the lines [lss]. *)
Lemma container_lines level opening closing (items : list str)
    (lss : list (list str)) (prefix : str) :
  items ≠ [] →
  Forall (λ ls, ls ≠ []) lss →
  (λ it, pad (S level) ++ it) <$> items = lines_text <$> lss →
  prefix ++ Json.container 4 level opening closing items =
  lines_text ([prefix ++ [opening]] ++ comma_separated lss
              ++ [pad level ++ [closing]]).
Proof.
  intros Hitems Hlss Heq.
  assert (lss ≠ []) as Hne.
  { intros ->. destruct items; [done|]. done. }
  rewrite lines_text_app; [|done|].
  2:{ intros [H _]%app_eq_nil. by apply (comma_separated_nonempty lss). }
  rewrite lines_text_app; [|by apply comma_separated_nonempty|done].
  rewrite lines_text_comma_separated by done. rewrite <- Heq.
  rewrite <- (join_indent (S level) [COMMA]) by done.
  unfold Json.container. destruct items as [|it items]; [done|].
  unfold Json.newline_indent. fold (pad (S level)). fold (pad level).
  simpl lines_text. rewrite !app_nil_r.
  change (NL :: ?x) with ([NL] ++ x).
  by rewrite <- !(assoc_L (++)).
Qed.

Lemma lines_text_one l : lines_text [l] = l.
Proof. unfold lines_text. simpl. by rewrite app_nil_r. Qed.

Lemma list_lines_nonempty depth kv : list_lines depth kv ≠ [].
Proof. unfold list_lines. by destruct kv.2. Qed.

Lemma record_lines_nonempty depth kv : record_lines depth kv ≠ [].
Proof. unfold record_lines. by destruct kv.2. Qed.

Lemma list_lines_text depth (kv : str * list str) :
  pad depth ++ Json.member false kv.1 (Json.encode_list 4 false depth kv.2)
  = lines_text (list_lines depth kv).
Proof.
  unfold Json.member, Json.encode_list, list_lines.
  rewrite <- json_string_encode.
  destruct kv.2 as [|v vals] eqn:Hvals.
  - rewrite lines_text_one. done.
  - rewrite <- Hvals.
    pose proof (container_lines depth 91%N 93%N (Json.encode_str false <$> kv.2)
                  ((λ v, [pad (S depth) ++ json_string v]) <$> kv.2)
                  (pad depth ++ json_string kv.1 ++ [58%N; 32%N])) as Hc.
    rewrite <- !(assoc_L (++)) in Hc. apply Hc.
    + rewrite Hvals. done.
    + apply Forall_fmap, Forall_forall. done.
    + rewrite <- !list_fmap_compose. apply list_fmap_ext.
      intros i x _. unfold compose. by rewrite lines_text_one, json_string_encode.
Qed.

Lemma record_lines_text depth (kv : str * dict (list str)) :
  pad depth ++ Json.member false kv.1 (Json.encode_record 4 false depth kv.2)
  = lines_text (record_lines depth kv).
Proof.
  unfold Json.member, Json.encode_record, record_lines.
  rewrite <- json_string_encode.
  destruct kv.2 as [|f fields] eqn:Hfields.
  - rewrite lines_text_one. done.
  - rewrite <- Hfields.
    pose proof (container_lines depth 123%N 125%N
                  ((λ f, Json.member false f.1
                           (Json.encode_list 4 false (S depth) f.2)) <$> kv.2)
                  (list_lines (S depth) <$> kv.2)
                  (pad depth ++ json_string kv.1 ++ [58%N; 32%N])) as Hc.
    rewrite <- !(assoc_L (++)) in Hc. apply Hc.
    + rewrite Hfields. done.
    + apply Forall_fmap, Forall_forall. intros x _. apply list_lines_nonempty.
    + rewrite <- !list_fmap_compose. apply list_fmap_ext.
      intros i x _. unfold compose. apply list_lines_text.
Qed.

(** The encoder's text is the pretty-printed one. *)
Lemma dumps_pretty (data : report) : Json.dumps data 4 false = pretty data.
Proof.
  unfold Json.dumps, pretty, report_lines.
  destruct data as [|kv rest] eqn:Hdata; [done|].
  rewrite <- Hdata.
  pose proof (container_lines 0 123%N 125%N
                ((λ kv, Json.member false kv.1
                          (Json.encode_record 4 false 1 kv.2)) <$> data)
                (record_lines 1 <$> data) []) as Hc.
  rewrite !app_nil_l in Hc. apply Hc.
  - rewrite Hdata. done.
  - apply Forall_fmap, Forall_forall. intros x _. apply record_lines_nonempty.
  - rewrite <- !list_fmap_compose. apply list_fmap_ext.
    intros i x _. unfold compose. apply record_lines_text.
Qed.

Lemma json_string_plain s :
  plain_text s → json_string s = [QUOTE] ++ s ++ [QUOTE].
Proof. rewrite json_string_encode. apply encode_str_plain. Qed.

(** *** Every way a run can go *)

Lemma store_cases w path bs :
  (∃ k, space w = Some k ∧ k < length bs
        ∧ store w path bs = (Raise OSError, set_file w path (take k bs)))
  ∨ (fits w bs ∧ store w path bs = (Ok (), set_file w path bs)).
Proof.
  unfold store, fits. destruct (space w) as [k|]; [|by right].
  case_decide; [left; eauto|right]. split; [lia|done].
Qed.

(** The read fails; or the output file may not be opened; or the device
    takes only a part of the text; or the text is written and the message
    cannot be printed; or the run returns. *)
Lemma run_cases w :
  (∃ e, read_text w INPUT = Raise e ∧ extract_set_piece_data w = (Raise e, w))
  ∨ (∃ content, read_text w INPUT = Ok content ∧ OUTPUT ∈ denied w
       ∧ extract_set_piece_data w = (Raise PermissionError, w))
  ∨ (∃ content bs,
       read_text w INPUT = Ok content ∧ (OUTPUT ∉ denied w)
       ∧ Utf8.encode (Json.dumps (extract content) 4 false) = Some bs
       ∧ ((∃ k, space w = Some k ∧ k < length bs
                ∧ extract_set_piece_data w =
                  (Raise OSError, set_file w OUTPUT (take k bs)))
          ∨ (∃ e, fits w bs ∧ stream_error (stdout_state w) = Some e
                ∧ extract_set_piece_data w = (Raise e, set_file w OUTPUT bs))
          ∨ (fits w bs ∧ stdout_state w = Open
             ∧ extract_set_piece_data w =
               (Ok (), World (<[OUTPUT := bs]> (files w)) (denied w)
                             (stdout w ++ MESSAGE ++ [NL]) (space w) Open)))).
Proof.
  unfold extract_set_piece_data.
  destruct (read_text w INPUT) as [content|e] eqn:Hread; [|left; eauto].
  right. cbv zeta. unfold write_text.
  destruct (decide (OUTPUT ∈ denied w)) as [Hden|Hok]; [left; eauto|].
  right.
  destruct (encode_scalar (Json.dumps (extract content) 4 false)) as [bs Hbs].
  { by eapply extract_scalar, read_text_scalar. }
  exists content, bs. split; [done|]. split; [done|]. split; [done|].
  rewrite Hbs.
  destruct (store_cases w OUTPUT bs) as [(k & Hk & Hlt & ->)|[Hfits ->]].
  { left. eauto. }
  right. unfold print. simpl stdout_state.
  destruct (stdout_state w) eqn:Hst; simpl.
  - right. done.
  - left. eauto.
  - left. eauto.
Qed.

(** C7.  Every record of the result has the four fields [penalties],
    [direct_free_kicks], [corners_indirect_free_kicks], [notes] in this
    order, each a list of strings; the keys of the result are the clubs
    found, in the order of the roster.  The text [json.dump] writes is the
    pretty-printed one: an object a club, its key after four spaces, the
    keys of its fields after eight, every string of a list on a line of
    its own after twelve, closing brackets at the depth of their key, and
    in a string every character from U+0020 on stands as it is, the
    characters outside ASCII among them, but for the double quote and the
    backslash.  A run that can read its input and open its output leaves
    the UTF-8 of this text in the output file when the device takes it,
    and returns when the message can be printed. *)
Theorem report_layout content :
  (∀ club (rec : dict (list str)),
     (club, rec) ∈ extract content → dict_keys rec = FIELDS)
  ∧ dict_keys (extract content) = filter (λ c, found content c = true) clubs
  ∧ dict_keys (extract content) `sublist_of` clubs
  ∧ Json.dumps (extract content) 4 false = pretty (extract content)
  ∧ (∀ w,
       read_text w INPUT = Ok content →
       OUTPUT ∉ denied w →
       ∃ bs,
         Utf8.encode (pretty (extract content)) = Some bs
         ∧ (fits w bs →
            files (extract_set_piece_data w).2 !! OUTPUT = Some bs)
         ∧ (fits w bs → stdout_state w = Open →
            (extract_set_piece_data w).1 = Ok ()))
  ∧ Forall line_ok (tail (split_on NL (Json.dumps (extract content) 4 false)))
  ∧ (∀ s, plain_text s → json_string s = [QUOTE] ++ s ++ [QUOTE]).
Proof.
  split; [|split; [|split; [|split; [|split; [|split]]]]].
  - intros club rec Hin.
    pose proof (extract_entries content) as Hall.
    rewrite Forall_forall in Hall. destruct (Hall _ Hin) as (_ & a & b & Hs).
    simpl in Hs. by rewrite Hs.
  - apply extract_keys.
  - rewrite extract_keys. apply sublist_filter.
  - apply dumps_pretty.
  - intros w Hread Hok. rewrite <- dumps_pretty.
    destruct (run_cases w) as [(e & Hr & _)|[(c & _ & Hden & _)
      |(c & bs & Hr & _ & Hbs & Hcases)]];
      [by rewrite Hread in Hr|done|].
    rewrite Hread in Hr. injection Hr as <-.
    exists bs. split; [done|].
    destruct Hcases as [(k & Hk & Hlt & _)|[(e & _ & Hst & Hrun)
                       |(_ & Hst & Hrun)]].
    + split; intros Hfits; unfold fits in Hfits; rewrite Hk in Hfits; lia.
    + split.
      * intros _. rewrite Hrun. simpl. apply lookup_insert_eq.
      * intros _ Hopen. by rewrite Hopen in Hst.
    + split.
      * intros _. rewrite Hrun. simpl. apply lookup_insert_eq.
      * intros _ _. by rewrite Hrun.
  - apply indented_lines, dumps_indented.
  - apply json_string_plain.
Qed.

Lemma report_layout_witness :
  dict_keys ARSENAL_RECORD = FIELDS
  ∧ files (extract_set_piece_data SAMPLE_WORLD).2 !! OUTPUT =
    Utf8.encode (pretty (extract (ARSENAL_SECTION ++ ASTON_VILLA_SECTION)))
  ∧ (extract_set_piece_data SAMPLE_WORLD).1 = Ok ()
  ∧ json_string (py "Ødegaard") = [QUOTE] ++ py "Ødegaard" ++ [QUOTE].
Proof.
  split; [|split; [|split]].
  - apply (proj1 (report_layout (ARSENAL_SECTION ++ ASTON_VILLA_SECTION))
             (py "Arsenal") ARSENAL_RECORD).
    apply (bool_decide_unpack _). by vm_compute.
  - destruct (proj1 (proj2 (proj2 (proj2 (proj2
        (report_layout (ARSENAL_SECTION ++ ASTON_VILLA_SECTION))))))
        SAMPLE_WORLD) as (bs & Hbs & Hfile & _).
    + by vm_compute.
    + by vm_compute.
    + rewrite Hbs. apply Hfile. exact I.
  - destruct (proj1 (proj2 (proj2 (proj2 (proj2
        (report_layout (ARSENAL_SECTION ++ ASTON_VILLA_SECTION))))))
        SAMPLE_WORLD) as (bs & _ & _ & Hret).
    + by vm_compute.
    + by vm_compute.
    + apply Hret; [exact I|reflexivity].
  - apply (proj2 (proj2 (proj2 (proj2 (proj2 (proj2
        (report_layout (ARSENAL_SECTION ++ ASTON_VILLA_SECTION)))))))).
    apply (bool_decide_unpack _). by vm_compute.
Defined.

(** The text written for the Arsenal section alone, line by line. *)
Example dumps_arsenal_lines :
  split_on NL (Json.dumps (extract ARSENAL_SECTION) 4 false) =
  [ py "{";
    py "    " ++ [QUOTE] ++ py "Arsenal" ++ [QUOTE] ++ py ": {";
    py "        " ++ [QUOTE] ++ py "penalties" ++ [QUOTE] ++ py ": [";
    py "            " ++ [QUOTE] ++ py "Saka" ++ [QUOTE];
    py "        ],";
    py "        " ++ [QUOTE] ++ py "direct_free_kicks" ++ [QUOTE] ++ py ": [";
    py "            " ++ [QUOTE] ++ py "Trossard" ++ [QUOTE];
    py "        ],";
    py "        " ++ [QUOTE] ++ py "corners_indirect_free_kicks" ++ [QUOTE]
      ++ py ": [";
    py "            " ++ [QUOTE] ++ py "Saka" ++ [QUOTE] ++ py ",";
    py "            " ++ [QUOTE] ++ py "Ødegaard" ++ [QUOTE];
    py "        ],";
    py "        " ++ [QUOTE] ++ py "notes" ++ [QUOTE] ++ py ": []";
    py "    }";
    py "}" ].
Proof. by vm_compute. Qed.

(** ** Failures *)

(** C8.  When the input file cannot be opened, is missing, or does not
    decode as UTF-8, the run raises and leaves the world as it was: no
    file is created or changed, the output file included, and nothing is
    printed. *)
Theorem read_failure_writes_nothing w :
  INPUT ∈ denied w
  ∨ files w !! INPUT = None
  ∨ (∃ bs, files w !! INPUT = Some bs ∧ Utf8.decode bs = None) →
  ∃ e, extract_set_piece_data w = (Raise e, w).
Proof.
  unfold extract_set_piece_data, read_text.
  intros [Hden|[Hnone|(bs & Hbs & Hdec)]].
  - rewrite decide_True by done. eauto.
  - case_decide; [eauto|]. rewrite Hnone. eauto.
  - case_decide; [eauto|]. rewrite Hbs, Hdec. eauto.
Qed.

Lemma read_failure_writes_nothing_witness :
  (∃ e, extract_set_piece_data EMPTY_WORLD = (Raise e, EMPTY_WORLD))
  ∧ (∃ e, extract_set_piece_data BAD_BYTES_WORLD = (Raise e, BAD_BYTES_WORLD)).
Proof.
  split.
  - apply (read_failure_writes_nothing EMPTY_WORLD).
    right. left. reflexivity.
  - apply (read_failure_writes_nothing BAD_BYTES_WORLD).
    right. right. exists [xff]. split; reflexivity.
Defined.

(** * Part IV: further properties *)

(** ** Trimming, and cutting into lines *)

Lemma lstrip_spec s :
  ∃ ws, s = ws ++ lstrip s ∧ spaces ws
        ∧ ∀ c, head (lstrip s) = Some c → isspace c = false.
Proof.
  induction s as [|c s (ws & Hs & Hws & Hh)]; simpl.
  - exists []. split; [done|]. split; [constructor|done].
  - destruct (isspace c) eqn:Hc.
    + exists (c :: ws). split; [by simpl; f_equal|].
      split; [by constructor | done].
    + exists []. split; [done|]. split; [constructor|].
      simpl. by intros ? [= <-].
Qed.

Lemma lstrip_space c s : isspace c = true → lstrip (c :: s) = lstrip s.
Proof. intros Hc. simpl. by rewrite Hc. Qed.

Lemma lstrip_spaces ws s : spaces ws → lstrip (ws ++ s) = lstrip s.
Proof. induction 1 as [|c ws Hc _ IH]; [done|]. simpl. by rewrite Hc. Qed.

Lemma lstrip_stop c s : isspace c = false → lstrip (c :: s) = c :: s.
Proof. intros Hc. simpl. by rewrite Hc. Qed.

Lemma rstrip_spec s :
  ∃ ws, s = rstrip s ++ ws ∧ spaces ws
        ∧ ∀ c, last (rstrip s) = Some c → isspace c = false.
Proof.
  unfold rstrip. destruct (lstrip_spec (reverse s)) as (ws & Hs & Hws & Hh).
  exists (reverse ws). split; [|split].
  - rewrite <- reverse_app, <- Hs. by rewrite reverse_involutive.
  - by apply Forall_reverse.
  - intros c. rewrite last_reverse. apply Hh.
Qed.

Lemma rstrip_snoc_space s c : isspace c = true → rstrip (s ++ [c]) = rstrip s.
Proof. intros Hc. unfold rstrip. by rewrite reverse_snoc, lstrip_space. Qed.

Lemma rstrip_snoc_stop s c : isspace c = false → rstrip (s ++ [c]) = s ++ [c].
Proof.
  intros Hc. unfold rstrip.
  by rewrite reverse_snoc, lstrip_stop, reverse_cons, reverse_involutive.
Qed.

Lemma rstrip_cons_nonempty c s : rstrip s ≠ [] → rstrip (c :: s) = c :: rstrip s.
Proof.
  induction s as [|x s IH] using rev_ind; [done|].
  destruct (isspace x) eqn:Hx.
  - rewrite rstrip_snoc_space by done. intros Hne.
    change (c :: s ++ [x]) with ((c :: s) ++ [x]).
    rewrite rstrip_snoc_space by done. auto.
  - intros _. change (c :: s ++ [x]) with ((c :: s) ++ [x]).
    by rewrite !rstrip_snoc_stop.
Qed.

(** [strip] cuts whitespace off both ends, and nothing else. *)
Lemma strip_spec s :
  ∃ ws1 ws2, s = ws1 ++ strip s ++ ws2 ∧ spaces ws1 ∧ spaces ws2
    ∧ (∀ c, head (strip s) = Some c → isspace c = false)
    ∧ (∀ c, last (strip s) = Some c → isspace c = false).
Proof.
  unfold strip. destruct (lstrip_spec s) as (ws1 & Hs1 & Hws1 & Hh).
  destruct (rstrip_spec (lstrip s)) as (ws2 & Hs2 & Hws2 & Hl).
  exists ws1, ws2. split; [by rewrite <- Hs2|].
  split; [done|]. split; [done|]. split; [|done].
  intros c Hc. apply Hh. rewrite Hs2.
  destruct (rstrip (lstrip s)); [done|]. exact Hc.
Qed.

Lemma strip_nil : strip [] = [].
Proof. reflexivity. Qed.

Lemma strip_cons_space c s : isspace c = true → strip (c :: s) = strip s.
Proof. intros Hc. unfold strip. by rewrite lstrip_space. Qed.

Lemma lstrip_snoc s c :
  isspace c = true →
  lstrip (s ++ [c]) = match lstrip s with [] => [] | _ => lstrip s ++ [c] end.
Proof.
  intros Hc. induction s as [|x s IH]; simpl; [by rewrite Hc|].
  destruct (isspace x); [done|]. done.
Qed.

Lemma strip_snoc_space s c : isspace c = true → strip (s ++ [c]) = strip s.
Proof.
  intros Hc. unfold strip. rewrite lstrip_snoc by done.
  destruct (lstrip s) as [|x l] eqn:Hl; [done|].
  by rewrite rstrip_snoc_space.
Qed.

Lemma split_on_nonempty sep s : split_on sep s ≠ [].
Proof.
  destruct s as [|c s]; [done|]. rewrite split_on_cons.
  case_bool_decide; [done|]. by destruct (split_on sep s).
Qed.

Lemma kept_lines_app ls1 ls2 :
  kept_lines (ls1 ++ ls2) = kept_lines ls1 ++ kept_lines ls2.
Proof. unfold kept_lines. by rewrite fmap_app, filter_app. Qed.

Lemma kept_lines_nil_line ls : kept_lines ([] :: ls) = kept_lines ls.
Proof. by rewrite kept_lines_cons. Qed.

Lemma kept_lines_same_strip l l' ls :
  strip l = strip l' → kept_lines (l :: ls) = kept_lines (l' :: ls).
Proof. intros Heq. by rewrite !kept_lines_cons, Heq. Qed.

Lemma text_lines_cons_space c t : isspace c = true → text_lines (c :: t) = text_lines t.
Proof.
  intros Hc. unfold text_lines. rewrite split_on_cons. case_bool_decide.
  - apply kept_lines_nil_line.
  - destruct (split_on NL t) as [|l ls] eqn:Hs; [by apply split_on_nonempty in Hs|].
    apply kept_lines_same_strip. by apply strip_cons_space.
Qed.

Lemma text_lines_spaces ws t : spaces ws → text_lines (ws ++ t) = text_lines t.
Proof.
  induction 1 as [|c ws Hc _ IH]; [done|]. simpl.
  by rewrite text_lines_cons_space.
Qed.

Lemma split_on_snoc_sep s : split_on NL (s ++ [NL]) = split_on NL s ++ [[]].
Proof.
  induction s as [|c s IH]; [done|].
  change ((c :: s) ++ [NL]) with (c :: (s ++ [NL])).
  rewrite !split_on_cons, IH. case_bool_decide; [done|].
  destruct (split_on NL s) as [|l ls] eqn:Hs; [by apply split_on_nonempty in Hs|].
  done.
Qed.

Lemma split_on_snoc_other s c :
  c ≠ NL →
  ∃ ls l, split_on NL s = ls ++ [l] ∧ split_on NL (s ++ [c]) = ls ++ [l ++ [c]].
Proof.
  intros Hc. induction s as [|x s (ls & l & Hs & Hs')].
  - exists [], []. split; [done|]. simpl. by rewrite bool_decide_eq_false_2.
  - change ((x :: s) ++ [c]) with (x :: (s ++ [c])).
    rewrite !split_on_cons, Hs, Hs'. case_bool_decide.
    + exists ([] :: ls), l. done.
    + destruct ls as [|l0 ls]; simpl.
      * exists [], (x :: l). done.
      * exists ((x :: l0) :: ls), l. done.
Qed.

Lemma text_lines_snoc_space t c : isspace c = true → text_lines (t ++ [c]) = text_lines t.
Proof.
  intros Hc. unfold text_lines. destruct (decide (c = NL)) as [->|Hne].
  - rewrite split_on_snoc_sep, kept_lines_app.
    change (kept_lines [[]]) with (@nil str). by rewrite app_nil_r.
  - destruct (split_on_snoc_other t c Hne) as (ls & l & -> & ->).
    rewrite !kept_lines_app. f_equal.
    apply kept_lines_same_strip. by apply strip_snoc_space.
Qed.

Lemma text_lines_spaces_r t ws : spaces ws → text_lines (t ++ ws) = text_lines t.
Proof.
  induction ws as [|c ws IH] using rev_ind; intros Hws;
    [by rewrite app_nil_r|].
  apply Forall_app in Hws as [Hws Hc]. apply Forall_cons in Hc as [Hc _].
  rewrite (assoc_L (++)). rewrite text_lines_snoc_space; [by apply IH|done].
Qed.

(** Trimming a text before cutting it into lines changes nothing. *)
Lemma text_lines_strip t : text_lines (strip t) = text_lines t.
Proof.
  destruct (strip_spec t) as (ws1 & ws2 & Ht & Hws1 & Hws2 & _).
  rewrite Ht at 2. rewrite text_lines_spaces by done.
  by rewrite text_lines_spaces_r.
Qed.

Lemma split_on_unlines ls :
  Forall (λ l, NL ∉ l) ls → split_on NL (unlines ls) = ls ++ [[]].
Proof.
  induction 1 as [|l ls Hl _ IH]; [done|].
  change (unlines (l :: ls)) with ((l ++ [NL]) ++ unlines ls).
  rewrite <- (assoc_L (++)). simpl. rewrite split_on_app_plain by done.
  by rewrite IH.
Qed.

Lemma text_lines_unlines ls :
  Forall (λ l, NL ∉ l) ls → text_lines (unlines ls) = kept_lines ls.
Proof.
  intros Hls. unfold text_lines. rewrite split_on_unlines by done.
  rewrite kept_lines_app. change (kept_lines [[]]) with (@nil str).
  by rewrite app_nil_r.
Qed.

Lemma stripped_lines_kept text : stripped_lines text = text_lines text.
Proof.
  unfold stripped_lines, text_lines, kept_lines.
  induction (split_on NL text) as [|l ls IH]; [done|].
  rewrite filter_cons, fmap_cons, filter_cons.
  repeat case_decide.
  - rewrite fmap_cons. by f_equal.
  - exfalso. by destruct (truthy (strip l)).
  - exfalso. by destruct (truthy (strip l)).
  - done.
Qed.

(** ** The corners loop splits the lines once *)

Lemma classify_step_start takers l :
  classify_step (takers, [], false) l =
  if truthy (strip l) then
    if bool_decide (length (split_ws (strip l)) ≤ 2)
    then (takers ++ [strip l], [], false)
    else (takers, [strip l], true)
  else (takers, [], false).
Proof.
  unfold classify_step. destruct (truthy (strip l)); simpl; [|done].
  rewrite andb_true_r. by case_bool_decide.
Qed.

Lemma classify_from_start ls takers :
  (foldl classify_step (takers, [], false) ls).1 =
  (takers ++ (split_latch (kept_lines ls)).1, (split_latch (kept_lines ls)).2).
Proof.
  revert takers. induction ls as [|l ls IH]; intros takers.
  - simpl. by rewrite app_nil_r.
  - rewrite kept_lines_cons.
    change (foldl classify_step ?a (l :: ls))
      with (foldl classify_step (classify_step a l) ls).
    rewrite classify_step_start.
    destruct (truthy (strip l)) eqn:Hl; [|apply IH].
    simpl split_latch.
    destruct (decide (short (strip l))) as [Hs|Hs].
    + rewrite bool_decide_eq_true_2 by exact Hs. rewrite IH. simpl.
      by rewrite <- (assoc_L (++)).
    + rewrite bool_decide_eq_false_2 by exact Hs.
      rewrite classify_in_notes. simpl. by rewrite app_nil_r.
Qed.

Lemma classify_split_latch ls : classify ls = split_latch (kept_lines ls).
Proof.
  unfold classify. rewrite classify_from_start. simpl.
  by destruct (split_latch (kept_lines ls)).
Qed.

Lemma split_latch_app kept :
  (split_latch kept).1 ++ (split_latch kept).2 = kept.
Proof.
  induction kept as [|k kept IH]; [done|]. simpl.
  destruct (decide (short k)); simpl; [by rewrite IH | done].
Qed.

Lemma split_latch_short kept : Forall short (split_latch kept).1.
Proof.
  induction kept as [|k kept IH]; [constructor|]. simpl.
  destruct (decide (short k)); simpl; [by constructor | constructor].
Qed.

Lemma split_latch_long kept x :
  head (split_latch kept).2 = Some x → ¬ short x.
Proof.
  induction kept as [|k kept IH]; [done|]. simpl.
  destruct (decide (short k)); simpl; [done|]. by intros [= <-].
Qed.

Lemma split_latch_Forall (P : str → Prop) kept :
  Forall P kept → Forall P (split_latch kept).1 ∧ Forall P (split_latch kept).2.
Proof.
  intros Hk. rewrite <- (split_latch_app kept) in Hk.
  by apply Forall_app in Hk.
Qed.

(** X5.  The corners loop loses and reorders nothing: takers followed by
    notes are the trimmed non-empty lines in their order; every taker has
    at most two words; the first note, if there is one, has more than two;
    and there are no notes exactly when every line has at most two
    words. *)
Theorem classify_partition ls :
  (classify ls).1 ++ (classify ls).2 = kept_lines ls
  ∧ Forall (λ l, length (split_ws l) ≤ 2) (classify ls).1
  ∧ (∀ n, head (classify ls).2 = Some n → 2 < length (split_ws n))
  ∧ ((classify ls).2 = [] ↔
     Forall (λ l, length (split_ws l) ≤ 2) (kept_lines ls)).
Proof.
  rewrite classify_split_latch.
  split; [apply split_latch_app|]. split; [apply split_latch_short|].
  split.
  - intros n Hn%split_latch_long. unfold short in Hn. lia.
  - split.
    + intros Hnil. pose proof (split_latch_app (kept_lines ls)) as Happ.
      rewrite Hnil, app_nil_r in Happ. rewrite <- Happ.
      apply split_latch_short.
    + intros Hall. destruct (split_latch (kept_lines ls)).2 as [|n ns] eqn:Hn;
        [done|].
      exfalso. apply (split_latch_long (kept_lines ls) n); [by rewrite Hn|].
      pose proof (split_latch_Forall _ _ Hall) as [_ H2].
      rewrite Hn in H2. by apply Forall_cons in H2 as [H2 _].
Qed.

(** ** Where the strings of the report come from *)

Lemma occurs_in_refl s : occurs_in s s.
Proof. exists [], []. by rewrite app_nil_r. Qed.

Lemma occurs_in_trans a b c : occurs_in a b → occurs_in b c → occurs_in a c.
Proof.
  intros (x & y & ->) (x' & y' & ->). exists (x' ++ x), (y ++ y').
  by rewrite <- !(assoc_L (++)).
Qed.

Lemma occurs_in_app_l a s t : occurs_in a s → occurs_in a (t ++ s).
Proof. intros (x & y & ->). exists (t ++ x), y. by rewrite <- !(assoc_L (++)). Qed.

Lemma occurs_in_app_r a s t : occurs_in a s → occurs_in a (s ++ t).
Proof. intros (x & y & ->). exists x, (y ++ t). by rewrite <- !(assoc_L (++)). Qed.

Lemma occurs_in_strip s : occurs_in (strip s) s.
Proof. destruct (strip_spec s) as (ws1 & ws2 & Hs & _). by exists ws1, ws2. Qed.

Lemma occurs_in_slice s a b : occurs_in (slice s a b) s.
Proof.
  unfold slice. exists (take a s), (drop (b - a) (drop a s)).
  by rewrite take_drop, take_drop.
Qed.

Lemma split_on_pieces sep s :
  ∃ l ls, split_on sep s = l :: ls ∧ (sep ∉ l) ∧ l `prefix_of` s
          ∧ Forall (λ p, (sep ∉ p) ∧ occurs_in p s) ls.
Proof.
  induction s as [|c s (l & ls & Hs & Hl & Hpre & Hls)].
  - exists [], []. split; [done|]. split; [apply not_elem_of_nil|].
    split; [done|constructor].
  - rewrite split_on_cons, Hs. case_bool_decide.
    + exists [], (l :: ls). split; [done|]. split; [apply not_elem_of_nil|].
      split; [apply prefix_nil|]. constructor.
      * split; [done|]. destruct Hpre as [k ->]. exists [c], k. done.
      * eapply Forall_impl; [exact Hls|]. intros p [? ?]. split; [done|].
        by apply (occurs_in_app_l _ _ [c]).
    + exists (c :: l), ls. split; [done|].
      split; [apply not_elem_of_cons; split; [congruence|done]|].
      split; [by apply prefix_cons|].
      eapply Forall_impl; [exact Hls|]. intros p [? ?]. split; [done|].
      by apply (occurs_in_app_l _ _ [c]).
Qed.

Lemma split_on_all_pieces s :
  Forall (λ p, (NL ∉ p) ∧ occurs_in p s) (split_on NL s).
Proof.
  destruct (split_on_pieces NL s) as (l & ls & -> & Hl & [k Hk] & Hls).
  constructor; [|done]. split; [done|]. exists [], k. done.
Qed.

Lemma kept_lines_from s ls :
  Forall (λ p, (NL ∉ p) ∧ occurs_in p s) ls → Forall (line_of s) (kept_lines ls).
Proof.
  induction 1 as [|l ls [Hl Hocc] _ IH]; [constructor|].
  rewrite kept_lines_cons. destruct (truthy (strip l)) eqn:Ht; [|done].
  constructor; [|done]. exists l. split; [done|]. split; [|done].
  by apply bool_decide_eq_true in Ht.
Qed.

Lemma text_lines_from t : Forall (line_of t) (text_lines t).
Proof. apply kept_lines_from, split_on_all_pieces. Qed.

Lemma line_of_mono s s' v : occurs_in s s' → line_of s v → line_of s' v.
Proof.
  intros Hocc (line & ? & ? & ? & ?). exists line. repeat split; try done.
  by eapply occurs_in_trans.
Qed.

Lemma group1_occurs anchor post s m :
  no_group post = true →
  re_search (block_re anchor post) s = Some m →
  occurs_in (group1 m) s.
Proof.
  intros Hpost Hs.
  apply block_search in Hs
    as (pre & ws & l & ls & t & rest & -> & _ & _ & _ & Hg & _); [|done].
  unfold group1. rewrite Hg. simpl.
  exists (pre ++ anchor ++ ws ++ [NL]), (t ++ rest).
  by rewrite <- !(assoc_L (++)).
Qed.

Lemma block_lines_from anchor post s m :
  no_group post = true →
  re_search (block_re anchor post) s = Some m →
  Forall (line_of s) (text_lines (strip (group1 m))).
Proof.
  intros Hpost Hs. eapply Forall_impl; [apply text_lines_from|].
  intros v. apply line_of_mono.
  eapply occurs_in_trans; [apply occurs_in_strip|].
  by eapply group1_occurs.
Qed.

Lemma club_record_lines s :
  Forall (λ kv : str * list str, Forall (line_of s) kv.2) (club_record s).
Proof.
  unfold club_record, penalties_of, direct_of, corners_notes_of.
  repeat (apply Forall_cons; split); [| | | |constructor]; simpl.
  - destruct (re_search penalties_re s) as [m|] eqn:Hm; [|constructor].
    rewrite stripped_lines_kept.
    by eapply (block_lines_from PENALTIES (lits DIRECT)); [apply no_group_lits|].
  - destruct (re_search free_kicks_re s) as [m|] eqn:Hm; [|constructor].
    rewrite stripped_lines_kept.
    by eapply (block_lines_from DIRECT (lits CORNERS)); [apply no_group_lits|].
  - destruct (re_search corners_re s) as [m|] eqn:Hm; [|constructor].
    rewrite classify_split_latch. apply split_latch_Forall.
    by eapply (block_lines_from CORNERS (Alt (Lit NL · Lit NL) EndZ)).
  - destruct (re_search corners_re s) as [m|] eqn:Hm; [|constructor].
    rewrite classify_split_latch. apply split_latch_Forall.
    by eapply (block_lines_from CORNERS (Alt (Lit NL · Lit NL) EndZ)).
Qed.

Lemma line_of_trimmed s v : line_of s v → trimmed v.
Proof.
  intros (line & -> & Hne & Hnl & _).
  destruct (strip_spec line) as (ws1 & ws2 & Hl & _ & _ & Hh & Hlast).
  split; [done|]. split; [done|]. split; [done|].
  intros Hin. apply Hnl. rewrite Hl. rewrite !elem_of_app. auto.
Qed.

Lemma line_of_occurs s v : line_of s v → occurs_in v s.
Proof.
  intros (line & -> & _ & _ & Hocc).
  eapply occurs_in_trans; [apply occurs_in_strip|done].
Qed.

Lemma extract_values_lines content club rec field vals v :
  dict_get (extract content) club = Some rec →
  dict_get rec field = Some vals →
  v ∈ vals →
  line_of content v.
Proof.
  intros Hrec%dict_get_elem_of Hvals%dict_get_elem_of Hv.
  pose proof (extract_entries content) as Hall. rewrite Forall_forall in Hall.
  destruct (Hall _ Hrec) as (_ & a & b & Heq). simpl in Heq. subst rec.
  pose proof (club_record_lines (slice content a b)) as Hlines.
  rewrite Forall_forall in Hlines. specialize (Hlines _ Hvals). simpl in Hlines.
  rewrite Forall_forall in Hlines.
  eapply line_of_mono; [apply occurs_in_slice|]. by apply Hlines.
Qed.

(** X6.  Every string of every list of the report is not empty, has no
    whitespace at either end and no newline inside, and stands in the
    input text as it is. *)
Theorem report_strings_from_text content club rec field vals v :
  dict_get (extract content) club = Some rec →
  dict_get rec field = Some vals →
  v ∈ vals →
  trimmed v ∧ occurs_in v content.
Proof.
  intros Hrec Hvals Hv.
  pose proof (extract_values_lines _ _ _ _ _ _ Hrec Hvals Hv) as Hline.
  split; [by eapply line_of_trimmed | by apply line_of_occurs].
Qed.

Lemma report_strings_from_text_witness :
  trimmed (py "Ødegaard")
  ∧ occurs_in (py "Ødegaard") (ARSENAL_SECTION ++ ASTON_VILLA_SECTION).
Proof.
  apply (report_strings_from_text
           (ARSENAL_SECTION ++ ASTON_VILLA_SECTION) (py "Arsenal")
           ARSENAL_RECORD F_CORNERS [py "Saka"; py "Ødegaard"]).
  - by vm_compute.
  - by vm_compute.
  - apply (bool_decide_unpack _). by vm_compute.
Defined.

(** ** The keys of the report *)

(** X1.  No club is a key of the report twice, and a name is a key exactly
    when it is a club of the roster whose heading (the name, optional
    whitespace, a newline, [Penalties]) stands somewhere in the text. *)
Theorem report_keys content :
  NoDup (dict_keys (extract content))
  ∧ ∀ club, club ∈ dict_keys (extract content) ↔
            club ∈ clubs ∧ ∃ p, anchor_at club content p.
Proof.
  rewrite extract_keys. split.
  - apply NoDup_filter, clubs_NoDup.
  - intros club. rewrite list_elem_of_filter, found_spec. tauto.
Qed.

(** X8.  A text in which [Penalties] occurs nowhere gives the empty
    report, and what is written for it is [{}]. *)
Theorem no_penalties_word content :
  ¬ occurs_in PENALTIES content →
  extract content = [] ∧ Json.dumps (extract content) 4 false = py "{}".
Proof.
  intros Hno.
  assert (extract content = []) as ->; [|split; [done|by vm_compute]].
  apply (fmap_nil_inv fst). change (dict_keys (extract content) = []).
  rewrite extract_keys.
  destruct (filter _ clubs) as [|club ks] eqn:Hf; [done|].
  assert (club ∈ filter (λ c, found content c = true) clubs) as Hin
    by (rewrite Hf; left).
  apply list_elem_of_filter in Hin as [(p & pre & ws & post & -> & _)%found_spec _].
  destruct Hno. exists (pre ++ club ++ ws ++ [NL]), post.
  by rewrite <- !(assoc_L (++)).
Qed.

Lemma no_penalties_word_witness :
  extract NO_HEADINGS = [] ∧ Json.dumps (extract NO_HEADINGS) 4 false = py "{}".
Proof.
  apply (no_penalties_word NO_HEADINGS).
  intros Hocc%occurs_in_infix. by vm_compute in Hocc.
Defined.

(** ** The penalties and free-kick blocks *)

Lemma literal_block_extent anchor closing s m :
  re_search (block_re anchor (lits closing)) s = Some m →
  ∃ pre ws l ls rest,
    s = pre ++ anchor ++ ws ++ [NL] ++ unlines (l :: ls) ++ closing ++ rest
    ∧ spaces ws
    ∧ Forall (λ l, NL ∉ l) (l :: ls)
    ∧ stripped_lines (strip (group1 m)) = kept_lines (l :: ls)
    ∧ ∀ j line, 0 < j → (l :: ls) !! j = Some line →
        ¬ closing `prefix_of` line.
Proof.
  intros Hs. apply block_search in Hs
    as (pre & ws & l & ls & t & rest & Heq & Hws & Hls & ->%matches_lits & Hg & _ & Hmin);
    [|apply no_group_lits].
  exists pre, ws, l, ls, rest. split; [done|]. split; [done|]. split; [done|].
  split.
  - unfold group1. rewrite Hg. simpl default.
    by rewrite stripped_lines_kept, text_lines_strip, text_lines_unlines.
  - intros j line Hj Hline [k ->].
    assert (j < length (l :: ls)) as Hlt by (by eapply lookup_lt_Some).
    apply (Hmin j (conj Hj Hlt) closing
             (k ++ [NL] ++ unlines (drop (S j) (l :: ls)) ++ closing ++ rest)).
    + assert (drop j (l :: ls) = (closing ++ k) :: drop (S j) (l :: ls)) as ->
        by (by apply drop_S).
      change (unlines (?x :: ?r)) with ((x ++ [NL]) ++ unlines r).
      by rewrite <- !(assoc_L (++)).
    + by apply matches_lits.
Qed.

(** X2.  When the penalties pattern matches, the section reads: something,
    [Penalties], optional whitespace, a newline, one or more whole lines,
    [Direct free-kicks] at the start of the next line.  The penalties list
    is made of those lines, trimmed, the empty ones dropped; and no line of
    them after the first starts with [Direct free-kicks]: the block stops
    at the first such line. *)
Theorem penalties_block_extent s m :
  re_search penalties_re s = Some m →
  ∃ pre ws l ls rest,
    s = pre ++ PENALTIES ++ ws ++ [NL] ++ unlines (l :: ls) ++ DIRECT ++ rest
    ∧ spaces ws
    ∧ Forall (λ l, NL ∉ l) (l :: ls)
    ∧ penalties_of s = kept_lines (l :: ls)
    ∧ ∀ j line, 0 < j → (l :: ls) !! j = Some line →
        ¬ DIRECT `prefix_of` line.
Proof.
  intros Hs. unfold penalties_of. rewrite Hs.
  by apply (literal_block_extent PENALTIES DIRECT).
Qed.

Lemma penalties_block_extent_witness :
  ∃ pre ws l ls rest,
    ARSENAL_SECTION
    = pre ++ PENALTIES ++ ws ++ [NL] ++ unlines (l :: ls) ++ DIRECT ++ rest
    ∧ spaces ws
    ∧ Forall (λ l, NL ∉ l) (l :: ls)
    ∧ penalties_of ARSENAL_SECTION = kept_lines (l :: ls)
    ∧ ∀ j line, 0 < j → (l :: ls) !! j = Some line →
        ¬ DIRECT `prefix_of` line.
Proof.
  eapply (penalties_block_extent ARSENAL_SECTION).
  by vm_compute.
Defined.

(** X3.  The same for the free-kick block: it is the whole lines between
    the line of [Direct free-kicks] and the first later line that starts
    with [Corners & indirect free-kicks]. *)
Theorem free_kicks_block_extent s m :
  re_search free_kicks_re s = Some m →
  ∃ pre ws l ls rest,
    s = pre ++ DIRECT ++ ws ++ [NL] ++ unlines (l :: ls) ++ CORNERS ++ rest
    ∧ spaces ws
    ∧ Forall (λ l, NL ∉ l) (l :: ls)
    ∧ direct_of s = kept_lines (l :: ls)
    ∧ ∀ j line, 0 < j → (l :: ls) !! j = Some line →
        ¬ CORNERS `prefix_of` line.
Proof.
  intros Hs. unfold direct_of. rewrite Hs.
  by apply (literal_block_extent DIRECT CORNERS).
Qed.

Lemma free_kicks_block_extent_witness :
  ∃ pre ws l ls rest,
    ARSENAL_SECTION
    = pre ++ DIRECT ++ ws ++ [NL] ++ unlines (l :: ls) ++ CORNERS ++ rest
    ∧ spaces ws
    ∧ Forall (λ l, NL ∉ l) (l :: ls)
    ∧ direct_of ARSENAL_SECTION = kept_lines (l :: ls)
    ∧ ∀ j line, 0 < j → (l :: ls) !! j = Some line →
        ¬ CORNERS `prefix_of` line.
Proof.
  eapply (free_kicks_block_extent ARSENAL_SECTION).
  by vm_compute.
Defined.

Lemma closing_heading_occurs anchor closing s m :
  re_search (block_re anchor (lits closing)) s = Some m → occurs_in closing s.
Proof.
  intros Hs. apply block_search in Hs
    as (pre & ws & l & ls & t & rest & -> & _ & _ & ->%matches_lits & _);
    [|apply no_group_lits].
  exists (pre ++ anchor ++ ws ++ [NL] ++ unlines (l :: ls)), rest.
  by rewrite <- !(assoc_L (++)).
Qed.

Lemma opening_heading_occurs anchor post s m :
  no_group post = true →
  re_search (block_re anchor post) s = Some m → occurs_in anchor s.
Proof.
  intros Hpost Hs. apply block_search in Hs
    as (pre & ws & l & ls & t & rest & -> & _); [|done].
  exists pre. eauto.
Qed.

(** X4.  A section in which [Corners & indirect free-kicks] occurs
    nowhere gives empty [direct_free_kicks], [corners_indirect_free_kicks]
    and [notes]: the free-kick block is closed by the corners heading
    only, so its lines are lost with it. *)
Theorem no_corners_heading content i club p :
  clubs !! i = Some club →
  first_anchor_at club content p →
  ¬ occurs_in CORNERS (slice content p (section_end content i)) →
  ∃ rec,
    dict_get (extract content) club = Some rec
    ∧ dict_get rec F_DIRECT = Some []
    ∧ dict_get rec F_CORNERS = Some []
    ∧ dict_get rec F_NOTES = Some [].
Proof.
  intros Hi Hp Hno. eexists. split; [by apply (extract_record _ i)|].
  set (s := slice content p (section_end content i)) in *.
  destruct (club_record_fields s) as (_ & -> & -> & ->).
  assert (direct_of s = []) as ->.
  { unfold direct_of. destruct (re_search free_kicks_re s) as [m|] eqn:Hm; [|done].
    destruct Hno. by apply (closing_heading_occurs DIRECT CORNERS s m). }
  assert (corners_notes_of s = ([], [])) as ->; [|done].
  unfold corners_notes_of. destruct (re_search corners_re s) as [m|] eqn:Hm; [|done].
  destruct Hno.
  by apply (opening_heading_occurs CORNERS (Alt (Lit NL · Lit NL) EndZ) s m).
Qed.

Lemma no_corners_heading_witness :
  ∃ rec,
    dict_get (extract NO_CORNERS) (py "Arsenal") = Some rec
    ∧ dict_get rec F_DIRECT = Some []
    ∧ dict_get rec F_CORNERS = Some []
    ∧ dict_get rec F_NOTES = Some [].
Proof.
  apply (no_corners_heading NO_CORNERS 0 (py "Arsenal") 0).
  - reflexivity.
  - apply first_anchor_by_search. by vm_compute.
  - intros Hocc%occurs_in_infix. by vm_compute in Hocc.
Defined.

(** ** A section in the expected layout *)

Lemma count_infix_pos t s a b : s = a ++ t ++ b → 0 < count_infix t s.
Proof.
  revert s. induction a as [|x a IH]; intros s ->.
  - destruct (t ++ b) eqn:Heq; simpl;
      rewrite bool_decide_eq_true_2; try lia; rewrite <- Heq; by exists b.
  - simpl. specialize (IH _ eq_refl). lia.
Qed.

Lemma count_infix_once t s : count_infix t s ≤ 1 → occurs_once t s.
Proof.
  induction s as [|x s IH]; intros Hc a b a' b' Ha Ha'.
  - symmetry in Ha, Ha'. apply app_eq_nil in Ha as [-> _].
    by apply app_eq_nil in Ha' as [-> _].
  - simpl in Hc. destruct a as [|y a], a' as [|y' a']; [done| | |].
    + exfalso. simpl in Ha. injection Ha' as -> Ha'.
      pose proof (count_infix_pos _ _ _ _ Ha').
      rewrite bool_decide_eq_true_2 in Hc; [lia|]. rewrite Ha. by exists b.
    + exfalso. simpl in Ha'. injection Ha as -> Ha.
      pose proof (count_infix_pos _ _ _ _ Ha).
      rewrite bool_decide_eq_true_2 in Hc; [lia|]. rewrite Ha'. by exists b'.
    + injection Ha as -> Ha. injection Ha' as -> Ha'. f_equal.
      apply (IH ltac:(lia) a b a' b' Ha Ha').
Qed.

(** When the words before a heading agree, so does what follows it. *)
Lemma occurs_once_split t s a b a' b' :
  occurs_once t s → s = a ++ t ++ b → s = a' ++ t ++ b' → a = a' ∧ b = b'.
Proof.
  intros Honce Ha Ha'. assert (a = a') as <- by (by eapply Honce).
  split; [done|]. rewrite Ha in Ha'. by apply app_inv_head, app_inv_head in Ha'.
Qed.

(** A block that starts later in the whitespace after the heading has the
    same lines. *)
Lemma shifted_block_lines ws g u :
  spaces ws → ws ++ [NL] ++ g = [NL] ++ u → text_lines g = text_lines u.
Proof.
  intros Hws Heq. destruct ws as [|c ws].
  - simpl in Heq. by injection Heq as <-.
  - simpl in Heq. injection Heq as -> <-.
    apply Forall_cons in Hws as [_ Hws].
    rewrite text_lines_spaces by done. by rewrite text_lines_cons_space.
Qed.

Lemma block_search_exists anchor post pre ws l ls t rest :
  spaces ws → Forall (λ l, NL ∉ l) (l :: ls) → matches post t rest →
  is_Some (re_search (block_re anchor post)
             (pre ++ anchor ++ ws ++ [NL] ++ unlines (l :: ls) ++ t ++ rest)).
Proof.
  intros Hws Hls Ht.
  destruct (re_search _ _) as [m|] eqn:Hs; [eauto|].
  exfalso. rewrite re_search_None in Hs. apply (Hs (length pre)).
  exists (anchor ++ ws ++ [NL] ++ unlines (l :: ls) ++ t), rest.
  rewrite drop_app_length. split; [by rewrite <- !(assoc_L (++))|].
  split; [rewrite length_app; lia|]. by apply matches_block.
Qed.

Lemma literal_block_lines anchor closing s m a u b :
  re_search (block_re anchor (lits closing)) s = Some m →
  s = a ++ anchor ++ [NL] ++ u ++ closing ++ b →
  occurs_once anchor s → occurs_once closing s →
  text_lines (strip (group1 m)) = text_lines u.
Proof.
  intros Hs Hshape Hanchor Hclosing.
  apply block_search in Hs
    as (pre & ws & l & ls & t & rest & Heq & Hws & _ & ->%matches_lits & Hg & _);
    [|apply no_group_lits].
  unfold group1. rewrite Hg. simpl default. rewrite text_lines_strip.
  destruct (occurs_once_split _ _ _ _ _ _ Hanchor Heq Hshape) as [-> Htail].
  assert (s = (a ++ anchor ++ ws ++ [NL] ++ unlines (l :: ls)) ++ closing ++ rest)
    as Heq1 by (by rewrite Heq, <- !(assoc_L (++))).
  assert (s = (a ++ anchor ++ [NL] ++ u) ++ closing ++ b)
    as Heq2 by (by rewrite Hshape, <- !(assoc_L (++))).
  destruct (occurs_once_split _ _ _ _ _ _ Hclosing Heq1 Heq2) as [Hpre _].
  apply app_inv_head, app_inv_head in Hpre.
  by eapply shifted_block_lines.
Qed.

Lemma end_block_lines s m a u :
  re_search corners_re s = Some m →
  s = a ++ CORNERS ++ [NL] ++ u →
  occurs_once CORNERS s → ¬ occurs_in [NL; NL; NL] s →
  text_lines (strip (group1 m)) = text_lines u.
Proof.
  intros Hs Hshape Honce Hno. rewrite corners_re_block in Hs.
  apply block_search in Hs
    as (pre & ws & l & ls & t & rest & Heq & Hws & _ & Ht%matches_terminator & Hg & _);
    [|done].
  unfold group1. rewrite Hg. simpl default. rewrite text_lines_strip.
  destruct Ht as [->|[-> ->]].
  - exfalso. apply Hno. destruct (unlines_snoc l ls) as [x Hx].
    rewrite Hx in Heq. exists (pre ++ CORNERS ++ ws ++ [NL] ++ x), rest.
    rewrite Heq. by rewrite <- !(assoc_L (++)).
  - rewrite !app_nil_r in Heq.
    assert (s = pre ++ CORNERS ++ (ws ++ [NL] ++ unlines (l :: ls))) as Heq1
      by (by rewrite Heq).
    assert (s = a ++ CORNERS ++ ([NL] ++ u)) as Heq2 by (by rewrite Hshape).
    destruct (occurs_once_split _ _ _ _ _ _ Honce Heq1 Heq2) as [_ Htail].
    by eapply shifted_block_lines.
Qed.

Lemma well_formed_record head pens fks crs :
  pens ≠ [] → fks ≠ [] → crs ≠ [] →
  Forall (λ l, NL ∉ l) pens → Forall (λ l, NL ∉ l) fks →
  Forall (λ l, NL ∉ l) crs →
  occurs_once PENALTIES (well_formed head pens fks crs) →
  occurs_once DIRECT (well_formed head pens fks crs) →
  occurs_once CORNERS (well_formed head pens fks crs) →
  ¬ occurs_in [NL; NL; NL] (well_formed head pens fks crs) →
  club_record (well_formed head pens fks crs) =
  [(F_PENALTIES, kept_lines pens); (F_DIRECT, kept_lines fks);
   (F_CORNERS, (split_latch (kept_lines crs)).1);
   (F_NOTES, (split_latch (kept_lines crs)).2)].
Proof.
  intros Hpens Hfks Hcrs Hpl Hfl Hcl Hp1 Hd1 Hc1 Hno.
  set (s := well_formed head pens fks crs) in *. unfold club_record.
  assert (penalties_of s = kept_lines pens) as ->.
  { unfold penalties_of.
    destruct pens as [|l ls]; [done|].
    destruct (block_search_exists PENALTIES (lits DIRECT) head [] l ls DIRECT
                ([NL] ++ unlines fks ++ CORNERS ++ [NL] ++ unlines crs))
      as [m Hm]; [constructor|done|by apply matches_lits|].
    assert (re_search penalties_re s = Some m) as Hm'.
    { rewrite penalties_re_block. unfold s, well_formed.
      rewrite app_nil_l in Hm. exact Hm. }
    rewrite Hm'.
    rewrite stripped_lines_kept, <- (text_lines_unlines (l :: ls)) by done.
    by apply (literal_block_lines PENALTIES DIRECT s m head _
                ([NL] ++ unlines fks ++ CORNERS ++ [NL] ++ unlines crs)). }
  assert (direct_of s = kept_lines fks) as ->.
  { unfold direct_of.
    destruct fks as [|l ls]; [done|].
    destruct (block_search_exists DIRECT (lits CORNERS)
                (head ++ PENALTIES ++ [NL] ++ unlines pens) [] l ls CORNERS
                ([NL] ++ unlines crs))
      as [m Hm]; [constructor|done|by apply matches_lits|].
    assert (re_search free_kicks_re s = Some m) as Hm'.
    { rewrite free_kicks_re_block. unfold s, well_formed.
      rewrite app_nil_l, <- !(assoc_L (++)) in Hm. exact Hm. }
    rewrite Hm'.
    rewrite stripped_lines_kept, <- (text_lines_unlines (l :: ls)) by done.
    apply (literal_block_lines DIRECT CORNERS s m
             (head ++ PENALTIES ++ [NL] ++ unlines pens) _
             ([NL] ++ unlines crs)); [done| |done|done].
    unfold s, well_formed. by rewrite <- !(assoc_L (++)). }
  assert (corners_notes_of s = split_latch (kept_lines crs)) as ->; [|done].
  unfold corners_notes_of.
  destruct crs as [|l ls]; [done|].
  destruct (block_search_exists CORNERS (Alt (Lit NL · Lit NL) EndZ)
              (head ++ PENALTIES ++ [NL] ++ unlines pens
               ++ DIRECT ++ [NL] ++ unlines fks) [] l ls [] [])
    as [m Hm]; [constructor|done|apply matches_terminator; auto|].
  assert (re_search corners_re s = Some m) as Hm'.
  { rewrite corners_re_block. unfold s, well_formed.
    rewrite app_nil_l, !app_nil_r, <- !(assoc_L (++)) in Hm. exact Hm. }
  rewrite Hm', classify_split_latch. f_equal.
  rewrite <- (text_lines_unlines (l :: ls)) by done.
  apply (end_block_lines s m
           (head ++ PENALTIES ++ [NL] ++ unlines pens
            ++ DIRECT ++ [NL] ++ unlines fks)); [done| |done|done].
  unfold s, well_formed. by rewrite <- !(assoc_L (++)).
Qed.

(** X7.  A section in the expected layout: any head, then [Penalties], a
    newline and lines, [Direct free-kicks], a newline and lines,
    [Corners & indirect free-kicks], a newline and lines, with each of the
    three headings occurring once and no three newlines in a row.  Its
    record holds the trimmed non-empty lines of the three blocks, the last
    one split at the first line of more than two words. *)
Theorem well_formed_section_record content i club p head pens fks crs :
  clubs !! i = Some club →
  first_anchor_at club content p →
  slice content p (section_end content i) = well_formed head pens fks crs →
  pens ≠ [] → fks ≠ [] → crs ≠ [] →
  Forall (λ l, NL ∉ l) pens → Forall (λ l, NL ∉ l) fks →
  Forall (λ l, NL ∉ l) crs →
  occurs_once PENALTIES (well_formed head pens fks crs) →
  occurs_once DIRECT (well_formed head pens fks crs) →
  occurs_once CORNERS (well_formed head pens fks crs) →
  ¬ occurs_in [NL; NL; NL] (well_formed head pens fks crs) →
  dict_get (extract content) club = Some (WELL_FORMED_RECORD pens fks crs).
Proof.
  intros Hi Hp Hslice. intros.
  rewrite (extract_record content i club p Hi Hp), Hslice.
  f_equal. by apply well_formed_record.
Qed.

Lemma well_formed_section_record_witness :
  dict_get (extract (ARSENAL_SECTION ++ ASTON_VILLA_SECTION)) (py "Arsenal") =
  Some (WELL_FORMED_RECORD [py "Saka"] [py "Trossard"]
          [py "Saka"; py "Ødegaard"; []]).
Proof.
  apply (well_formed_section_record
           (ARSENAL_SECTION ++ ASTON_VILLA_SECTION) 0 (py "Arsenal") 0
           (py "Arsenal\n")).
  - reflexivity.
  - apply first_anchor_by_search. by vm_compute.
  - by vm_compute.
  - done.
  - done.
  - done.
  - apply (bool_decide_unpack _). by vm_compute.
  - apply (bool_decide_unpack _). by vm_compute.
  - apply (bool_decide_unpack _). by vm_compute.
  - apply count_infix_once. vm_compute. lia.
  - apply count_infix_once. vm_compute. lia.
  - apply count_infix_once. vm_compute. lia.
  - intros Hocc%occurs_in_infix. by vm_compute in Hocc.
Defined.

(** ** Line ends of the input *)

Lemma universal_newlines_crlf s : CR ∉ s → universal_newlines (crlf s) = s.
Proof.
  induction s as [|c s IH]; [done|].
  intros [Hc Hs]%not_elem_of_cons. specialize (IH Hs). simpl crlf.
  case_bool_decide as Hnl.
  - subst c. simpl. by rewrite IH.
  - simpl. rewrite bool_decide_eq_false_2 by done. by rewrite IH.
Qed.

Lemma universal_newlines_no_CR s : CR ∉ universal_newlines s.
Proof.
  remember (length s) as n eqn:Hn. revert s Hn.
  induction n as [n IH] using lt_wf_ind. intros s ->.
  destruct s as [|c s]; [apply not_elem_of_nil|]. simpl.
  case_bool_decide as Hc.
  - apply not_elem_of_cons. split; [done|].
    destruct s as [|c' s]; [apply not_elem_of_nil|].
    case_bool_decide.
    + eapply IH; [|reflexivity]. simpl. lia.
    + eapply IH; [|reflexivity]. simpl. lia.
  - apply not_elem_of_cons. split; [done|].
    eapply IH; [|reflexivity]. simpl. lia.
Qed.

(** X9.  The text the script works on never holds a carriage return, and a
    file whose lines end with carriage return and newline is read as the
    same text with plain newlines. *)
Theorem read_text_newlines w path :
  (∀ content, read_text w path = Ok content → CR ∉ content)
  ∧ (∀ bs s,
       path ∉ denied w →
       files w !! path = Some bs →
       Utf8.decode bs = Some (crlf s) →
       CR ∉ s →
       read_text w path = Ok s).
Proof.
  split.
  - intros content. unfold read_text. case_decide; [done|].
    destruct (files w !! path) as [bs|]; [|done].
    destruct (Utf8.decode bs) as [s|]; [|done].
    intros [= <-]. apply universal_newlines_no_CR.
  - intros bs s Hok Hbs Hdec Hs. unfold read_text.
    rewrite decide_False by done. rewrite Hbs, Hdec.
    by rewrite universal_newlines_crlf.
Qed.

Lemma read_text_newlines_witness :
  (CR ∉ ARSENAL_SECTION ++ ASTON_VILLA_SECTION)
  ∧ read_text CRLF_WORLD INPUT = Ok (ARSENAL_SECTION ++ ASTON_VILLA_SECTION).
Proof.
  assert (read_text CRLF_WORLD INPUT = Ok (ARSENAL_SECTION ++ ASTON_VILLA_SECTION))
    as Hread.
  { apply (proj2 (read_text_newlines CRLF_WORLD INPUT)
             (default [] (Utf8.encode (crlf (ARSENAL_SECTION ++ ASTON_VILLA_SECTION))))).
    - apply (bool_decide_unpack _). by vm_compute.
    - reflexivity.
    - by vm_compute.
    - apply (bool_decide_unpack _). by vm_compute. }
  split; [|exact Hread].
  exact (proj1 (read_text_newlines CRLF_WORLD INPUT) _ Hread).
Defined.

(** ** What is written decodes to what was encoded *)










(** ** The outcomes of a run *)

Lemma read_text_no_encode_error w path e :
  read_text w path = Raise e → e ≠ UnicodeEncodeError.
Proof.
  unfold read_text. case_decide; [by intros [= <-]|].
  destruct (files w !! path) as [bs|]; [|by intros [= <-]].
  destruct (Utf8.decode bs); [done|by intros [= <-]].
Qed.

Lemma stream_error_no_encode_error s e :
  stream_error s = Some e → e ≠ UnicodeEncodeError.
Proof. destruct s; [done| |]; by intros [= <-]. Qed.

(** X10.  A run that raises has printed nothing and has changed no file
    but, at most, the output file.  When the failure is in reading the
    input or in opening the output file nothing has changed at all.
    Otherwise the output file was opened and truncated: it holds the first
    bytes of the JSON text, as many as the device took, when the write
    failed, and the whole JSON text when the message could not be
    printed.  The error is never an encoding error. *)
Theorem failed_run_outcomes w e w' :
  extract_set_piece_data w = (Raise e, w') →
  stdout w' = stdout w
  ∧ denied w' = denied w
  ∧ (∀ path, path ≠ OUTPUT → files w' !! path = files w !! path)
  ∧ e ≠ UnicodeEncodeError
  ∧ ((w' = w
      ∧ (read_text w INPUT = Raise e
         ∨ (e = PermissionError ∧ OUTPUT ∈ denied w)))
     ∨ ∃ content bs,
         read_text w INPUT = Ok content
         ∧ Utf8.encode (Json.dumps (extract content) 4 false) = Some bs
         ∧ ((e = OSError
             ∧ ∃ k, space w = Some k ∧ k < length bs
                    ∧ files w' !! OUTPUT = Some (take k bs))
            ∨ (stream_error (stdout_state w) = Some e
               ∧ files w' !! OUTPUT = Some bs))).
Proof.
  intros Hrun.
  destruct (run_cases w) as [(e0 & Hread & Hr)|[(content & Hread & Hden & Hr)
    |(content & bs & Hread & Hok & Hbs
      & [(k & Hk & Hlt & Hr)|[(e0 & Hfits & Hst & Hr)|(_ & _ & Hr)]])]];
    rewrite Hr in Hrun; [| | | |done].
  - injection Hrun as <- <-.
    split; [done|]. split; [done|]. split; [done|].
    split; [by eapply read_text_no_encode_error|]. left. auto.
  - injection Hrun as <- <-.
    split; [done|]. split; [done|]. split; [done|]. split; [done|].
    left. auto.
  - injection Hrun as <- <-. simpl.
    split; [done|]. split; [done|].
    split; [by intros path Hne; rewrite lookup_insert_ne|].
    split; [done|]. right. exists content, bs.
    split; [done|]. split; [done|]. left. split; [done|].
    exists k. split; [done|]. split; [done|]. apply lookup_insert_eq.
  - injection Hrun as <- <-. simpl.
    split; [done|]. split; [done|].
    split; [by intros path Hne; rewrite lookup_insert_ne|].
    split; [by eapply stream_error_no_encode_error|].
    right. exists content, bs.
    split; [done|]. split; [done|]. right. split; [done|].
    apply lookup_insert_eq.
Qed.

Lemma failed_run_outcomes_witness :
  (stdout (extract_set_piece_data BROKEN_PIPE_WORLD).2 = stdout BROKEN_PIPE_WORLD
  ∧ denied (extract_set_piece_data BROKEN_PIPE_WORLD).2 = denied BROKEN_PIPE_WORLD
  ∧ (∀ path, path ≠ OUTPUT →
       files (extract_set_piece_data BROKEN_PIPE_WORLD).2 !! path =
       files BROKEN_PIPE_WORLD !! path)
  ∧ BrokenPipeError ≠ UnicodeEncodeError
  ∧ (((extract_set_piece_data BROKEN_PIPE_WORLD).2 = BROKEN_PIPE_WORLD
      ∧ (read_text BROKEN_PIPE_WORLD INPUT = Raise BrokenPipeError
         ∨ (BrokenPipeError = PermissionError
            ∧ OUTPUT ∈ denied BROKEN_PIPE_WORLD)))
     ∨ ∃ content bs,
         read_text BROKEN_PIPE_WORLD INPUT = Ok content
         ∧ Utf8.encode (Json.dumps (extract content) 4 false) = Some bs
         ∧ ((BrokenPipeError = OSError
             ∧ ∃ k, space BROKEN_PIPE_WORLD = Some k ∧ k < length bs
                    ∧ files (extract_set_piece_data BROKEN_PIPE_WORLD).2
                        !! OUTPUT = Some (take k bs))
            ∨ (stream_error (stdout_state BROKEN_PIPE_WORLD)
               = Some BrokenPipeError
               ∧ files (extract_set_piece_data BROKEN_PIPE_WORLD).2 !! OUTPUT
                 = Some bs))))
  ∧ stdout (extract_set_piece_data FULL_DISK_WORLD).2 = stdout FULL_DISK_WORLD
  ∧ stdout (extract_set_piece_data WRITE_DENIED_WORLD).2
    = stdout WRITE_DENIED_WORLD.
Proof.
  split; [|split].
  - apply (failed_run_outcomes BROKEN_PIPE_WORLD BrokenPipeError).
    by vm_compute.
  - apply (failed_run_outcomes FULL_DISK_WORLD OSError).
    by vm_compute.
  - apply (failed_run_outcomes WRITE_DENIED_WORLD PermissionError).
    by vm_compute.
Defined.




